(** * gossip_tomography/inspect_raw.py: decoder and fingerprint index

    A shallow embedding of the raw gossip decoder of
    [src/gossip_tomography/inspect_raw.py] and the properties its
    specification states about it.

    Conventions of the embedding:
    - Python [bytes] are [list byte]; Python [int]s are [Z].
    - A Python [str] is the Rocq [string] holding its UTF-8 encoding
      (all strings built by the decoder except aliases and DNS host names
      are ASCII).
    - A Python [dict] is an association list in insertion order, with
      Python's update rule (an existing key keeps its place).
    - A function returns an [outcome]: a value, an [IndexError] raised by
      an out-of-range subscript, or [OutOfFuel] when the bound given to a
      [while] loop of the model is exhausted.  The theorems show that
      neither of the last two ever happens. *)

From Stdlib Require Import ZArith List String Ascii Bool Lia.
From Stdlib Require Import Strings.Byte.
From Stdlib Require Import DecimalString Permutation Sorting.Sorted.
Import ListNotations.

Local Open Scope string_scope.
Local Open Scope list_scope.
Local Open Scope Z_scope.

Infix "+++" := String.append (at level 60, right associativity).

(** ** Outcomes of a Python call *)

Inductive outcome (A : Type) : Type :=
| Ret (a : A)
| IndexError
| OutOfFuel.

Arguments Ret {A} a.
Arguments IndexError {A}.
Arguments OutOfFuel {A}.

Definition bind {A B : Type} (m : outcome A) (f : A -> outcome B) : outcome B :=
  match m with
  | Ret a => f a
  | IndexError => IndexError
  | OutOfFuel => OutOfFuel
  end.

Notation "x <- m ;; k" := (bind m (fun x => k))
  (at level 61, m at next level, right associativity).

Fixpoint mapM {A B : Type} (f : A -> outcome B) (l : list A) : outcome (list B) :=
  match l with
  | [] => Ret []
  | a :: l' => b <- f a ;; bs <- mapM f l' ;; Ret (b :: bs)
  end.

(** ** Python primitives on bytes, integers and strings *)

Definition byte_val (b : byte) : Z := Z.of_N (Byte.to_N b).

Definition len {A : Type} (l : list A) : Z := Z.of_nat (List.length l).

(** [data[i]]: a negative index counts from the end, anything outside the
    buffer raises. *)
Definition index (data : list byte) (i : Z) : outcome Z :=
  let j := if i <? 0 then i + len data else i in
  if j <? 0 then IndexError
  else match nth_error data (Z.to_nat j) with
       | Some b => Ret (byte_val b)
       | None => IndexError
       end.

(** Bound of a slice, as Python normalises it. *)
Definition clamp {A : Type} (l : list A) (i : Z) : Z :=
  if i <? 0 then Z.max 0 (i + len l) else Z.min i (len l).

(** [data[i:j]]: never raises, a bound past the end is cut to the end. *)
Definition slice {A : Type} (l : list A) (i j : Z) : list A :=
  let lo := clamp l i in
  let hi := clamp l j in
  firstn (Z.to_nat (hi - lo)) (skipn (Z.to_nat lo) l).

(** [int.from_bytes(bs, "big")]. *)
Definition int_from_bytes_big (bs : list byte) : Z :=
  fold_left (fun acc b => acc * 256 + byte_val b) bs 0.

Definition hexdigits : string := "0123456789abcdef".

Definition hex_digit (n : Z) : ascii :=
  match String.get (Z.to_nat n) hexdigits with
  | Some c => c
  | None => "0"%char
  end.

(** [f"{b:02x}"] of one byte value. *)
Definition hex_byte (v : Z) : string :=
  String (hex_digit (v / 16)) (String (hex_digit (v mod 16)) "").

(** [bs.hex()]. *)
Fixpoint hex (bs : list byte) : string :=
  match bs with
  | [] => ""
  | b :: bs' => hex_byte (byte_val b) +++ hex bs'
  end.

(** [str(n)]. *)
Definition str (n : Z) : string := NilZero.string_of_int (Z.to_int n).

(** [sep.join(l)]. *)
Definition join (sep : string) (l : list string) : string := String.concat sep l.

(** [bs.rstrip(b"\x00")], by way of the reversed buffer. *)
Fixpoint lstrip_zero (bs : list byte) : list byte :=
  match bs with
  | [] => []
  | b :: bs' => if byte_val b =? 0 then lstrip_zero bs' else bs
  end.

Definition rstrip_zero (bs : list byte) : list byte := rev (lstrip_zero (rev bs)).

(** *** [bs.decode("utf-8", errors="replace")]

    Well-formed sequences are kept; every ill-formed one becomes U+FFFD.
    The erroneous range is the one CPython reports: one byte for an
    invalid start byte, the bytes accepted so far for an invalid
    continuation byte, and everything up to the end for a sequence cut
    short by the end of the data. *)

Definition chr (b : byte) : ascii := ascii_of_byte b.

Definition replacement_character : string :=
  String (chr xef) (String (chr xbf) (String (chr xbd) "")).

Definition is_continuation (b : byte) : bool :=
  (128 <=? byte_val b) && (byte_val b <=? 191).

Fixpoint utf8_decode_replace (s : list byte) : string :=
  match s with
  | [] => ""
  | ch :: s1 =>
    let c := byte_val ch in
    if c <? 128 then String (chr ch) (utf8_decode_replace s1)
    else if c <? 194 then replacement_character +++ utf8_decode_replace s1
    else if c <? 224 then
      match s1 with
      | [] => replacement_character
      | ch2 :: s2 =>
        if is_continuation ch2
        then String (chr ch) (String (chr ch2) (utf8_decode_replace s2))
        else replacement_character +++ utf8_decode_replace s1
      end
    else if c <? 240 then
      match s1 with
      | [] => replacement_character
      | ch2 :: s2 =>
        if negb (is_continuation ch2)
           || (if byte_val ch2 <? 160 then c =? 224 else c =? 237)
        then replacement_character +++ utf8_decode_replace s1
        else
          match s2 with
          | [] => replacement_character
          | ch3 :: s3 =>
            if is_continuation ch3
            then String (chr ch) (String (chr ch2) (String (chr ch3)
                   (utf8_decode_replace s3)))
            else replacement_character +++ utf8_decode_replace s2
          end
      end
    else if c <? 245 then
      match s1 with
      | [] => replacement_character
      | ch2 :: s2 =>
        if negb (is_continuation ch2)
           || (if byte_val ch2 <? 144 then c =? 240 else c =? 244)
        then replacement_character +++ utf8_decode_replace s1
        else
          match s2 with
          | [] => replacement_character
          | ch3 :: s3 =>
            if negb (is_continuation ch3)
            then replacement_character +++ utf8_decode_replace s2
            else
              match s3 with
              | [] => replacement_character
              | ch4 :: s4 =>
                if is_continuation ch4
                then String (chr ch) (String (chr ch2) (String (chr ch3)
                       (String (chr ch4) (utf8_decode_replace s4))))
                else replacement_character +++ utf8_decode_replace s3
              end
          end
      end
    else replacement_character +++ utf8_decode_replace s1
  end.

(** ** Python dictionaries with string keys *)

Definition dict (V : Type) : Type := list (string * V).

Fixpoint dict_get {V : Type} (k : string) (d : dict V) : option V :=
  match d with
  | [] => None
  | (k', v) :: d' => if String.eqb k k' then Some v else dict_get k d'
  end.

(** [d[k] = v]: a present key is overwritten where it stands, a new key
    goes to the end. *)
Fixpoint dict_set {V : Type} (k : string) (v : V) (d : dict V) : dict V :=
  match d with
  | [] => [(k, v)]
  | (k', v') :: d' =>
    if String.eqb k k' then (k, v) :: d' else (k', v') :: dict_set k v d'
  end.

Definition dict_keys {V : Type} (d : dict V) : list string := map fst d.

(** ** The feature table *)

(** BOLT 9 feature bit definitions. *)
Definition FEATURE_BITS : list (Z * string) :=
  [ (0, "data_loss_protect"); (1, "data_loss_protect");
    (4, "upfront_shutdown_script"); (5, "upfront_shutdown_script");
    (6, "gossip_queries"); (7, "gossip_queries");
    (8, "tlv_onion"); (9, "tlv_onion");
    (10, "gossip_queries_ex"); (11, "gossip_queries_ex");
    (12, "static_remote_key"); (13, "static_remote_key");
    (14, "payment_secret"); (15, "payment_secret");
    (16, "basic_mpp"); (17, "basic_mpp");
    (18, "large_channels"); (19, "large_channels");
    (20, "anchor_outputs"); (21, "anchor_outputs");
    (22, "anchors_zero_fee_htlc_tx"); (23, "anchors_zero_fee_htlc_tx");
    (24, "route_blinding"); (25, "route_blinding");
    (26, "shutdown_anysegwit"); (27, "shutdown_anysegwit");
    (28, "dual_fund"); (29, "dual_fund");
    (44, "channel_type"); (45, "channel_type");
    (46, "scid_alias"); (47, "scid_alias");
    (48, "payment_metadata"); (49, "payment_metadata");
    (50, "zero_conf"); (51, "zero_conf") ].

(** [FEATURE_BITS.get(bit, default)]. *)
Fixpoint table_get (bit : Z) (table : list (Z * string)) (default : string) : string :=
  match table with
  | [] => default
  | (b, name) :: table' => if bit =? b then name else table_get bit table' default
  end.

(** The name and the kind the loop body of [decode_features] computes for
    a set bit. *)
Definition feature_name (bit : Z) : string :=
  table_get bit FEATURE_BITS ("unknown_bit_" +++ str bit).

Definition feature_kind (bit : Z) : string :=
  if bit mod 2 =? 0 then "compulsory" else "optional".

(** ** [decode_features] *)

Fixpoint decode_features_loop (fuel : nat) (val bit : Z) (features : dict string)
  : outcome (dict string) :=
  if val >? 0 then
    match fuel with
    | O => OutOfFuel
    | S fuel' =>
      let features :=
        if negb (Z.land val 1 =? 0)
        then dict_set (feature_name bit) (feature_kind bit) features
        else features in
      decode_features_loop fuel' (Z.shiftr val 1) (bit + 1) features
    end
  else Ret features.

Definition decode_features (feat_bytes : list byte) : outcome (dict string) :=
  let feat_int :=
    match feat_bytes with
    | [] => 0
    | _ => int_from_bytes_big feat_bytes
    end in
  decode_features_loop (8 * List.length feat_bytes) feat_int 0 [].

(** ** [parse_addresses] *)

Record Address : Type := mkAddress { type : string; addr : string }.

(** What one pass through the body of the [while] loop does: go round
    again with a new offset and one more address, or [break]. *)
Inductive step : Type :=
| Continue (off : Z) (addrs : list Address)
| Break.

(** [range(0, 16, 2)]. *)
Definition range_0_16_2 : list Z := [0; 2; 4; 6; 8; 10; 12; 14].

Definition parse_addresses_body (data : list byte) (off : Z) (addrs : list Address)
  : outcome step :=
  addr_type <- index data off ;;
  let off := off + 1 in
  if addr_type =? 1 then
    if off + 6 >? len data then Ret Break
    else
      let ip := join "." (map (fun b => str (byte_val b)) (slice data off (off + 4))) in
      let port := int_from_bytes_big (slice data (off + 4) (off + 6)) in
      Ret (Continue (off + 6)
             (addrs ++ [mkAddress "ipv4" (ip +++ ":" +++ str port)]))
  else if addr_type =? 2 then
    if off + 18 >? len data then Ret Break
    else
      groups <- mapM (fun i =>
                        hi <- index data (off + i) ;;
                        lo <- index data (off + i + 1) ;;
                        Ret (hex_byte hi +++ hex_byte lo)) range_0_16_2 ;;
      let ip := join ":" groups in
      let port := int_from_bytes_big (slice data (off + 16) (off + 18)) in
      Ret (Continue (off + 18)
             (addrs ++ [mkAddress "ipv6" ("[" +++ ip +++ "]:" +++ str port)]))
  else if addr_type =? 3 then
    if off + 12 >? len data then Ret Break
    else Ret (Continue (off + 12) (addrs ++ [mkAddress "torv2" "torv2"]))
  else if addr_type =? 4 then
    if off + 37 >? len data then Ret Break
    else Ret (Continue (off + 37) (addrs ++ [mkAddress "torv3" "torv3_onion"]))
  else if addr_type =? 5 then
    if off + 1 >? len data then Ret Break
    else
      hlen <- index data off ;;
      let off := off + 1 in
      if off + hlen + 2 >? len data then Ret Break
      else
        let hostname := utf8_decode_replace (slice data off (off + hlen)) in
        let port := int_from_bytes_big (slice data (off + hlen) (off + hlen + 2)) in
        Ret (Continue (off + hlen + 2)
               (addrs ++ [mkAddress "dns" (hostname +++ ":" +++ str port)]))
  else Ret Break.

Fixpoint parse_addresses_loop (fuel : nat) (data : list byte) (off : Z)
  (addrs : list Address) : outcome (list Address) :=
  if off <? len data then
    match fuel with
    | O => OutOfFuel
    | S fuel' =>
      s <- parse_addresses_body data off addrs ;;
      match s with
      | Continue off' addrs' => parse_addresses_loop fuel' data off' addrs'
      | Break => Ret addrs
      end
    end
  else Ret addrs.

Definition parse_addresses (data : list byte) : outcome (list Address) :=
  parse_addresses_loop (List.length data) data 0 [].

(** ** [parse_node_announcement] *)

Record NodeRecord : Type := mkNodeRecord {
  node_id : string;
  alias : string;
  rgb : string;
  timestamp : Z;
  flen : Z;
  features_hex : string;
  features : dict string;
  addresses : list Address;
  addr_types : list string
}.

(** [features.hex() if features else ""]. *)
Definition hex_or_empty (features : list byte) : string :=
  match features with
  | [] => ""
  | _ => hex features
  end.

(** [None] is Python's [None]: the payload is rejected. *)
Definition parse_node_announcement (raw : list byte) : outcome (option NodeRecord) :=
  if len raw <? 2 + 4 + 33 + 3 + 32 + 2 then Ret None
  else
    let off := 0 in
    let flen := int_from_bytes_big (slice raw off (off + 2)) in
    let off := off + 2 in
    if off + flen + 4 + 33 + 3 + 32 + 2 >? len raw then Ret None
    else
      let features := slice raw off (off + flen) in
      let off := off + flen in
      let timestamp := int_from_bytes_big (slice raw off (off + 4)) in
      let off := off + 4 in
      let node_id := hex (slice raw off (off + 33)) in
      let off := off + 33 in
      let rgb := hex (slice raw off (off + 3)) in
      let off := off + 3 in
      let alias := utf8_decode_replace (rstrip_zero (slice raw off (off + 32))) in
      let off := off + 32 in
      let addrlen := int_from_bytes_big (slice raw off (off + 2)) in
      let off := off + 2 in
      let addr_bytes := slice raw off (off + addrlen) in
      addresses <- parse_addresses addr_bytes ;;
      decoded <- decode_features features ;;
      Ret (Some (mkNodeRecord node_id alias ("#" +++ rgb) timestamp flen
                   (hex_or_empty features) decoded addresses
                   (map type addresses))).

(** ** [parse_channel_announcement] *)

Record ChannelRecord : Type := mkChannelRecord {
  scid : Z;
  node1 : string;
  node2 : string;
  chan_flen : Z;
  chan_features_hex : string;
  chan_features : dict string
}.

Definition parse_channel_announcement (raw : list byte) : outcome (option ChannelRecord) :=
  if len raw <? 2 + 32 + 8 + 33 * 4 then Ret None
  else
    let off := 0 in
    let flen := int_from_bytes_big (slice raw off (off + 2)) in
    let off := off + 2 in
    let features := slice raw off (off + flen) in
    let off := off + flen in
    let chain_hash := hex (slice raw off (off + 32)) in
    let off := off + 32 in
    let scid := int_from_bytes_big (slice raw off (off + 8)) in
    let off := off + 8 in
    let node1 := hex (slice raw off (off + 33)) in
    let off := off + 33 in
    let node2 := hex (slice raw off (off + 33)) in
    decoded <- decode_features features ;;
    Ret (Some (mkChannelRecord scid node1 node2 flen (hex_or_empty features) decoded)).

(** ** [main]: the index of node records and the fingerprint groups *)

(** The update of [parsed_nodes] for one decoded record: store it when its
    node id is new or its timestamp is greater than the stored one. *)
Definition keep_latest (parsed_nodes : dict NodeRecord) (result : NodeRecord)
  : dict NodeRecord :=
  let nid := node_id result in
  match dict_get nid parsed_nodes with
  | None => dict_set nid result parsed_nodes
  | Some stored =>
    if timestamp result >? timestamp stored
    then dict_set nid result parsed_nodes
    else parsed_nodes
  end.

(** The first loop of [main] from [parse_node_announcement] on, over the
    payloads that [decode_raw] has returned for the node announcement
    rows; the state is [(parsed_nodes, parse_errors)].  The loop with
    [decode_raw] in it is [index_stored_rows], further down. *)
Fixpoint index_rows (rows : list (list byte)) (parsed_nodes : dict NodeRecord)
  (parse_errors : Z) : outcome (dict NodeRecord * Z) :=
  match rows with
  | [] => Ret (parsed_nodes, parse_errors)
  | raw :: rows' =>
    result <- parse_node_announcement raw ;;
    match result with
    | Some r => index_rows rows' (keep_latest parsed_nodes r) parse_errors
    | None => index_rows rows' parsed_nodes (parse_errors + 1)
    end
  end.

(** The same loop on records that were decoded already. *)
Definition index_records (records : list NodeRecord) (parsed_nodes : dict NodeRecord)
  : dict NodeRecord :=
  fold_left keep_latest records parsed_nodes.

(** [fprint_groups.setdefault(key, []).append(nid)]. *)
Definition setdefault_append (key nid : string) (groups : dict (list string))
  : dict (list string) :=
  match dict_get key groups with
  | Some members => dict_set key (members ++ [nid]) groups
  | None => dict_set key [nid] groups
  end.

Definition fprint_groups (parsed_nodes : dict NodeRecord) : dict (list string) :=
  fold_left (fun groups item => setdefault_append (features_hex (snd item)) (fst item) groups)
            parsed_nodes [].

(** * Statements of the specification *)

(** ** Feature decoding *)

(** The pair [(name, kind)] is the one of the highest set bit of [n] that
    carries [name]. *)
Definition reported (n : Z) (name kind : string) : Prop :=
  exists b, 0 <= b /\ Z.testbit n b = true /\
    feature_name b = name /\ feature_kind b = kind /\
    forall b', b < b' -> Z.testbit n b' = true -> feature_name b' <> name.

(** The reading "one pair per set bit": the pair of every set bit is in
    the mapping returned for [feat_bytes]. *)
Definition every_set_bit_reported (feat_bytes : list byte) : Prop :=
  forall m b, decode_features feat_bytes = Ret m ->
    0 <= b -> Z.testbit (int_from_bytes_big feat_bytes) b = true ->
    dict_get (feature_name b) m = Some (feature_kind b).

(** ** Address descriptors, after the table of the specification *)

Definition take {A : Type} (n : Z) (l : list A) : list A := firstn (Z.to_nat n) l.
Definition drop {A : Type} (n : Z) (l : list A) : list A := skipn (Z.to_nat n) l.

(** Length of the body that follows a tag byte: fixed for the tags 1 to
    4; for tag 5 one length byte, a host name of that length and the
    port.  No length for any other tag, nor for a tag 5 that is not
    followed by its length byte. *)
Definition body_length (tag : Z) (after_tag : list byte) : option Z :=
  if tag =? 1 then Some (4 + 2)
  else if tag =? 2 then Some (16 + 2)
  else if tag =? 3 then Some (10 + 2)
  else if tag =? 4 then Some (35 + 2)
  else if tag =? 5 then
    match after_tag with
    | [] => None
    | hlen :: _ => Some (1 + byte_val hlen + 2)
    end
  else None.

(** Groups of two bytes in hexadecimal. *)
Fixpoint hex_groups (bs : list byte) : list string :=
  match bs with
  | hi :: lo :: bs' => (hex_byte (byte_val hi) +++ hex_byte (byte_val lo)) :: hex_groups bs'
  | _ => []
  end.

(** The descriptor a complete body stands for. *)
Definition descriptor (tag : Z) (body : list byte) : Address :=
  if tag =? 1 then
    mkAddress "ipv4"
      (join "." (map (fun b => str (byte_val b)) (take 4 body))
       +++ ":" +++ str (int_from_bytes_big (drop 4 body)))
  else if tag =? 2 then
    mkAddress "ipv6"
      ("[" +++ join ":" (hex_groups (take 16 body))
       +++ "]:" +++ str (int_from_bytes_big (drop 16 body)))
  else if tag =? 3 then mkAddress "torv2" "torv2"
  else if tag =? 4 then mkAddress "torv3" "torv3_onion"
  else
    let hlen := match body with [] => 0 | b :: _ => byte_val b end in
    mkAddress "dns"
      (utf8_decode_replace (take hlen (drop 1 body))
       +++ ":" +++ str (int_from_bytes_big (drop (1 + hlen) body))).

(** The descriptor at the head of [s] and the bytes after it, when the tag
    is known and the bytes after the tag suffice for the body. *)
Definition read_descriptor (s : list byte) : option (Address * list byte) :=
  match s with
  | [] => None
  | tag :: after_tag =>
    match body_length (byte_val tag) after_tag with
    | None => None
    | Some n =>
      if len after_tag <? n then None
      else Some (descriptor (byte_val tag) (take n after_tag), drop n after_tag)
    end
  end.

(** [readable_prefix s l]: [l] lists the descriptors that can be read in
    full from the head of [s], up to the first place where none can. *)
Inductive readable_prefix : list byte -> list Address -> Prop :=
| readable_stop (s : list byte) :
    read_descriptor s = None -> readable_prefix s []
| readable_next (s rest : list byte) (a : Address) (l : list Address) :
    read_descriptor s = Some (a, rest) ->
    readable_prefix rest l ->
    readable_prefix s (a :: l).

(** ** Message decoding *)

(** The two length fields of a node announcement, read where the decoder
    reads them. *)
Definition flen_of (raw : list byte) : Z := int_from_bytes_big (slice raw 0 2).

Definition addrlen_of (raw : list byte) : Z :=
  int_from_bytes_big
    (slice raw (2 + flen_of raw + 4 + 33 + 3 + 32) (2 + flen_of raw + 4 + 33 + 3 + 32 + 2)).

(** The rejection rule of the specification for node announcements: the
    buffer is shorter than the fixed fields, or [flen] or [addrlen] leads
    past the end of the buffer. *)
Definition node_malformed_as_stated (raw : list byte) : Prop :=
  len raw < 2 + 4 + 33 + 3 + 32 + 2
  \/ 2 + flen_of raw + 4 + 33 + 3 + 32 + 2 > len raw
  \/ 2 + flen_of raw + 4 + 33 + 3 + 32 + 2 + addrlen_of raw > len raw.

Definition node_rejected_as_stated (raw : list byte) : Prop :=
  parse_node_announcement raw = Ret None <-> node_malformed_as_stated raw.

(** The rule the decoder applies. *)
Definition node_malformed (raw : list byte) : Prop :=
  len raw < 2 + 4 + 33 + 3 + 32 + 2
  \/ 2 + flen_of raw + 4 + 33 + 3 + 32 + 2 > len raw.

(** A node announcement with no features ([flen] 0), 76 zero bytes but for
    [addrlen], which is 1 although no byte follows it. *)
Definition overlong_addrlen_payload : list byte :=
  repeat x00 75 ++ [x01].

(** A channel announcement of the minimal 174 bytes whose [flen] is 65535. *)
Definition overlong_flen_payload : list byte :=
  [xff; xff] ++ repeat x00 172.

(** The end-to-end example of the specification,
    [0002 0002 00000001 <33 zero bytes> <3 zero bytes> "Test"+pad-to-32
     00<addrlen> 01 7F000001 2607], with the low byte of [addrlen] left
    open; the specification has 06. *)
Definition example_payload (addrlen : byte) : list byte :=
  [x00; x02; x00; x02; x00; x00; x00; x01]
  ++ repeat x00 33 ++ repeat x00 3
  ++ [x54; x65; x73; x74] ++ repeat x00 28
  ++ [x00; addrlen; x01; x7f; x00; x00; x01; x26; x07].

Definition example_node_id : string := hex (repeat x00 33).

Definition example_as_stated : Prop :=
  exists r, parse_node_announcement (example_payload x06) = Ret (Some r) /\
    flen r = 2 /\
    features r = [("data_loss_protect", "optional")] /\
    timestamp r = 1 /\
    alias r = "Test" /\
    addresses r = [mkAddress "ipv4" "127.0.0.1:9735"].

(** ** The index of node records *)

(** The records decoded from the rows, in the order of the rows; rejected
    rows give none. *)
Fixpoint decoded_records (rows : list (list byte)) : list NodeRecord :=
  match rows with
  | [] => []
  | raw :: rows' =>
    match parse_node_announcement raw with
    | Ret (Some r) => r :: decoded_records rows'
    | _ => decoded_records rows'
    end
  end.




(** Two announcements of one node with one timestamp and two aliases. *)
Definition tie_record (alias : string) : NodeRecord :=
  mkNodeRecord example_node_id alias "#000000" 100 0 "" [] [] [].

(** [r] is the survivor for its node id among the records [rs], taken in
    order of arrival: every record of the node before it has a smaller
    timestamp, and none after it has a greater one. *)
Definition survivor_of (rs : list NodeRecord) (r : NodeRecord) : Prop :=
  exists before after,
    rs = before ++ r :: after /\
    (forall r', In r' before -> node_id r' = node_id r -> timestamp r' < timestamp r) /\
    (forall r', In r' after -> node_id r' = node_id r -> timestamp r' <= timestamp r).

(** The reading "the strictly greatest timestamp seen": the record kept
    for a node id has a greater timestamp than every other record seen
    for that node id. *)
Definition survivor_strictly_greatest (rs : list NodeRecord) : Prop :=
  forall nid r r',
    dict_get nid (index_records rs []) = Some r ->
    In r' rs -> node_id r' = nid -> r' <> r ->
    timestamp r' < timestamp r.

(** ** Fingerprint groups *)

Definition same_group (groups : dict (list string)) (nid1 nid2 : string) : Prop :=
  exists key members,
    dict_get key groups = Some members /\ In nid1 members /\ In nid2 members.

(** The node ids, in the order of the index, of the records whose
    [features_hex] is [key]. *)
Definition group_members (key : string) (parsed_nodes : dict NodeRecord) : list string :=
  map fst (filter (fun item => String.eqb (features_hex (snd item)) key) parsed_nodes).

(** Reading a byte back from its two hexadecimal digits. *)
Definition unhex_digit (c : ascii) : Z :=
  match String.index 0 (String c "") hexdigits with
  | Some n => Z.of_nat n
  | None => 0
  end.

Definition unhex_byte (s : string) : option byte :=
  match s with
  | String c1 (String c2 _) => Byte.of_N (Z.to_N (16 * unhex_digit c1 + unhex_digit c2))
  | _ => None
  end.

(** A node record of the node [nid] with the group key and the [flen] of
    the feature bytes [feat_bytes]; the other fields are left empty. *)
Definition node_with_features (nid : string) (feat_bytes : list byte) : NodeRecord :=
  mkNodeRecord nid "" "#000000" 0 (len feat_bytes) (hex_or_empty feat_bytes) [] [] [].

(** Three nodes: two with the feature bytes [0002], one with [000200]. *)
Definition three_nodes : dict NodeRecord :=
  [ ("aa", node_with_features "aa" [x00; x02]);
    ("bb", node_with_features "bb" [x00; x02; x00]);
    ("cc", node_with_features "cc" [x00; x02]) ].

(** * Statements about the rest of [main] *)

(** The test of [parse_node_announcement] as a boolean. *)
Definition node_malformedb (raw : list byte) : bool :=
  (len raw <? 2 + 4 + 33 + 3 + 32 + 2)
  || (2 + flen_of raw + 4 + 33 + 3 + 32 + 2 >? len raw).

(** The elements of a list without repetition, each at the place of its
    first occurrence. *)
Definition first_occurrences (ids : list string) : list string :=
  rev (nodup string_dec (rev ids)).

(** The index holds a record of the node of [r] that is at least as
    recent as [r]. *)
Definition superseded (idx : dict NodeRecord) (r : NodeRecord) : Prop :=
  exists stored, dict_get (node_id r) idx = Some stored /\ timestamp r <= timestamp stored.

(** The sum of the sizes of the groups. *)
Definition total_members (groups : dict (list string)) : Z :=
  fold_right (fun item acc => len (snd item) + acc) 0 groups.

(** ** [bytes.fromhex] and the features of a group *)

(** ASCII white space, which [bytes.fromhex] skips between bytes. *)
Definition is_space (c : ascii) : bool :=
  let n := Z.of_N (N_of_ascii c) in
  (n =? 32) || ((9 <=? n) && (n <=? 13)).

(** The value of a hexadecimal digit of either case. *)
Definition digit_value (c : ascii) : option Z :=
  let n := Z.of_N (N_of_ascii c) in
  if (48 <=? n) && (n <=? 57) then Some (n - 48)
  else if (97 <=? n) && (n <=? 102) then Some (n - 87)
  else if (65 <=? n) && (n <=? 70) then Some (n - 55)
  else None.

Definition byte_of_Z (v : Z) : byte :=
  match Byte.of_N (Z.to_N v) with
  | Some b => b
  | None => x00
  end.

(** [bytes.fromhex(s)]; [None] stands for the [ValueError] raised on a
    character that is not a hexadecimal digit where one is due. *)
Fixpoint bytes_fromhex (s : string) : option (list byte) :=
  match s with
  | EmptyString => Some []
  | String c s1 =>
    if is_space c then bytes_fromhex s1
    else
      match digit_value c, s1 with
      | Some top, String c2 s2 =>
        match digit_value c2 with
        | Some bot =>
          match bytes_fromhex s2 with
          | Some bs => Some (byte_of_Z (16 * top + bot) :: bs)
          | None => None
          end
        | None => None
        end
      | _, _ => None
      end
  end.

(** [decode_features(bytes.fromhex(fhex)) if fhex else {}], the features
    [main] shows for the group with the key [fhex]. *)
Definition group_features (fhex : string) : option (outcome (dict string)) :=
  match fhex with
  | EmptyString => Some (Ret [])
  | _ =>
    match bytes_fromhex fhex with
    | Some bs => Some (decode_features bs)
    | None => None
    end
  end.

(** ** [Counter] and the statistics of [main] *)

Section Counter.
Context {K : Type} (eqb : K -> K -> bool).

(** [c[k]]: a key that is missing counts 0. *)
Fixpoint counter_get (k : K) (c : list (K * Z)) : Z :=
  match c with
  | [] => 0
  | (k', v) :: c' => if eqb k k' then v else counter_get k c'
  end.

Fixpoint counter_set (k : K) (v : Z) (c : list (K * Z)) : list (K * Z) :=
  match c with
  | [] => [(k, v)]
  | (k', v') :: c' => if eqb k k' then (k, v) :: c' else (k', v') :: counter_set k v c'
  end.

(** [c[k] += 1]. *)
Definition counter_add (k : K) (c : list (K * Z)) : list (K * Z) :=
  counter_set k (counter_get k c + 1) c.

(** [for k in ks: c[k] += 1]. *)
Definition counter_add_all (ks : list K) (c : list (K * Z)) : list (K * Z) :=
  fold_left (fun c k => counter_add k c) ks c.
End Counter.

(** The three counters of the feature statistics. *)
Record Statistics : Type := mkStatistics {
  feat_counter : list (string * Z);
  flen_counter : list (Z * Z);
  addr_type_counter : list (string * Z)
}.

(** The body of the loop over [parsed_nodes.values()]. *)
Definition count_node (st : Statistics) (n : NodeRecord) : Statistics :=
  mkStatistics
    (counter_add_all String.eqb (dict_keys (features n)) (feat_counter st))
    (counter_add Z.eqb (flen n) (flen_counter st))
    (counter_add_all String.eqb (addr_types n) (addr_type_counter st)).

Definition feature_statistics (parsed_nodes : dict NodeRecord) : Statistics :=
  fold_left count_node (map snd parsed_nodes) (mkStatistics [] [] []).

(** The record has the feature [name]. *)
Definition has_feature (name : string) (n : NodeRecord) : bool :=
  existsb (String.eqb name) (dict_keys (features n)).

(** ** The order of the groups in the report *)

(** [sorted(l, key=key)]: ascending in the key, and stable: an element goes
    in front of the first one whose key is not smaller. *)
Fixpoint insert_by {A : Type} (key : A -> Z) (x : A) (l : list A) : list A :=
  match l with
  | [] => [x]
  | y :: l' => if key x <=? key y then x :: l else y :: insert_by key x l'
  end.

Definition sorted {A : Type} (key : A -> Z) (l : list A) : list A :=
  fold_right (insert_by key) [] l.

(** [sorted(fprint_groups.items(), key=lambda x: -len(x[1]))]. *)
Definition ranked_groups (parsed_nodes : dict NodeRecord) : list (string * list string) :=
  sorted (fun item => - len (snd item)) (fprint_groups parsed_nodes).

(** ** [decode_raw]: the text handed to the base64 decoder *)

(** [len(s)] of a [str]: the number of its code points, which are the
    bytes of the UTF-8 encoding that are not continuation bytes. *)
Fixpoint str_len (s : string) : Z :=
  match s with
  | EmptyString => 0
  | String c s' => (if is_continuation (byte_of_ascii c) then 0 else 1) + str_len s'
  end.

(** [(4 - len(raw_str) % 4) % 4]. *)
Definition padding (raw_str : string) : Z :=
  (4 - str_len raw_str mod 4) mod 4.

(** [s * n] for a string of one character. *)
Definition string_times (c : ascii) (n : Z) : string :=
  string_of_list_ascii (repeat c (Z.to_nat n)).

(** [raw_str + "=" * padding]. *)
Definition padded (raw_str : string) : string :=
  raw_str +++ string_times "="%char (padding raw_str).

Section DecodeRaw.
(** [base64.urlsafe_b64decode] of the standard library, applied to a
    [str]; [None] when it raises ([binascii.Error] for text that is not
    base64, [ValueError] for text that is not ASCII). *)
Variable urlsafe_b64decode : string -> option (list byte).





End DecodeRaw.

(** ** Aliases *)

(** The text of ASCII bytes as a string. *)
Definition text_of (bs : list byte) : string := string_of_list_ascii (map chr bs).

(** The index in which every record stands under its own node id, in the
    order of the records. *)
Definition index_of_all (records : list NodeRecord) : dict NodeRecord :=
  map (fun r => (node_id r, r)) records.

(** ** Inputs used below *)

(** The example payload with [addrlen] 0007 and its last byte missing:
    [addrlen] announces seven address bytes and six follow. *)
Definition cut_address_payload : list byte := removelast (example_payload x07).

(** Three nodes with features: [data_loss_protect] in the first and the
    third, two other features in the second. *)
Definition featured_nodes : dict NodeRecord :=
  [ ("aa", mkNodeRecord "aa" "" "#000000" 0 2 "0002"
             [("data_loss_protect", "optional")] [] []);
    ("bb", mkNodeRecord "bb" "" "#000000" 0 2 "0110"
             [("upfront_shutdown_script", "compulsory"); ("tlv_onion", "compulsory")] [] []);
    ("cc", mkNodeRecord "cc" "" "#000000" 0 2 "0103"
             [("data_loss_protect", "optional"); ("tlv_onion", "compulsory")] [] []) ].


(** A node announcement of the minimal 76 bytes of another node: no
    features, timestamp 2, node id [02...02], no address. *)
Definition other_node_payload : list byte :=
  [x00; x00; x00; x00; x00; x02] ++ repeat x02 33 ++ repeat x00 37.

(** * Properties *)

(** ** The decoder on small inputs *)

Example decode_features_pair :
  decode_features [x03] = Ret [("data_loss_protect", "optional")].
Proof. reflexivity. Qed.

Example decode_features_two_names :
  decode_features [x01; x10]
  = Ret [("upfront_shutdown_script", "compulsory"); ("tlv_onion", "compulsory")].
Proof. reflexivity. Qed.

Example decode_features_unknown :
  decode_features [x01; x00; x00; x00; x00; x00; x00; x00; x00]
  = Ret [("unknown_bit_64", "compulsory")].
Proof. reflexivity. Qed.

Example parse_addresses_dns_then_ipv4 :
  parse_addresses [x05; x03; x61; x62; x63; x26; x07; x01; x0a; x00; x00; xff; x00; x50]
  = Ret [mkAddress "dns" "abc:9735"; mkAddress "ipv4" "10.0.0.255:80"].
Proof. reflexivity. Qed.

Example parse_addresses_ipv6 :
  parse_addresses
    [x02; x20; x01; x0d; xb8; x00; x00; x00; x00; x00; x00; x00; x00; x00; x00; x00; x01;
     x26; x07]
  = Ret [mkAddress "ipv6" "[2001:0db8:0000:0000:0000:0000:0000:0001]:9735"].
Proof. reflexivity. Qed.

Example parse_addresses_unknown_tag :
  parse_addresses [x04; x00; x00] = Ret [] /\ parse_addresses [x09; x01; x02] = Ret [].
Proof. split; reflexivity. Qed.

Example alias_trailing_zeros_and_cut_sequence :
  utf8_decode_replace (rstrip_zero [x41; xc3; xa9; xe2; x82; x00; x00])
  = String (chr x41) (String (chr xc3) (String (chr xa9) replacement_character)).
Proof. reflexivity. Qed.

(** ** Outcomes, bytes and slices *)

Lemma byte_val_range (b : byte) : 0 <= byte_val b < 256.
Proof.
  unfold byte_val. pose proof (Byte.to_N_bounded b) as H. lia.
Qed.

Lemma len_nonneg {A : Type} (l : list A) : 0 <= len l.
Proof. unfold len. lia. Qed.

Lemma len_cons {A : Type} (a : A) (l : list A) : len (a :: l) = 1 + len l.
Proof. unfold len. simpl List.length. lia. Qed.

(** A slice with bounds in order and not negative. *)
Lemma slice_nonneg {A : Type} (l : list A) (i j : Z) :
  0 <= i -> 0 <= j ->
  slice l i j =
  firstn (Z.to_nat (Z.min j (len l) - Z.min i (len l)))
         (skipn (Z.to_nat (Z.min i (len l))) l).
Proof.
  intros Hi Hj. unfold slice, clamp.
  destruct (Z.ltb_spec i 0); [lia|].
  destruct (Z.ltb_spec j 0); [lia|].
  reflexivity.
Qed.

Lemma slice_inside {A : Type} (l : list A) (i j : Z) :
  0 <= i -> i <= j -> j <= len l ->
  slice l i j = firstn (Z.to_nat (j - i)) (skipn (Z.to_nat i) l).
Proof.
  intros Hi Hij Hj. rewrite slice_nonneg by lia.
  rewrite !Z.min_l by lia. reflexivity.
Qed.

Lemma index_inside (data : list byte) (i : Z) :
  0 <= i < len data ->
  exists b, nth_error data (Z.to_nat i) = Some b /\ index data i = Ret (byte_val b).
Proof.
  intros [Hi Hl]. unfold index.
  assert (E0 : (i <? 0) = false) by (apply Z.ltb_ge; lia).
  cbv zeta. rewrite E0, E0.
  destruct (nth_error data (Z.to_nat i)) as [b|] eqn:E.
  - exists b. split; reflexivity.
  - apply nth_error_None in E. unfold len in Hl. lia.
Qed.

Lemma int_from_bytes_big_acc (bs : list byte) (acc : Z) :
  0 <= acc ->
  0 <= fold_left (fun a b => a * 256 + byte_val b) bs acc < (acc + 1) * 256 ^ len bs.
Proof.
  revert acc. induction bs as [|b bs IH]; intros acc Hacc.
  - cbn [fold_left]. change (len (@nil byte)) with 0. lia.
  - cbn [fold_left]. pose proof (byte_val_range b) as Hb.
    specialize (IH (acc * 256 + byte_val b) ltac:(lia)).
    rewrite len_cons. pose proof (len_nonneg bs) as Hl.
    rewrite Z.pow_add_r by lia.
    assert (0 < 256 ^ len bs) by (apply Z.pow_pos_nonneg; lia).
    nia.
Qed.

Lemma int_from_bytes_big_range (bs : list byte) :
  0 <= int_from_bytes_big bs < 2 ^ (8 * len bs).
Proof.
  unfold int_from_bytes_big.
  pose proof (int_from_bytes_big_acc bs 0 ltac:(lia)) as H.
  pose proof (len_nonneg bs) as Hl.
  rewrite Z.pow_mul_r by lia. change (2 ^ 8) with 256. lia.
Qed.

(** ** Dictionaries *)

Section DictFacts.
Context {V : Type}.
Implicit Types (d : dict V) (k : string) (v : V).

Lemma dict_get_set_same d k v : dict_get k (dict_set k v d) = Some v.
Proof.
  induction d as [|[k' v'] d IH]; simpl.
  - now rewrite String.eqb_refl.
  - destruct (String.eqb k k') eqn:E; simpl; rewrite ?String.eqb_refl, ?E; auto.
Qed.

Lemma dict_get_set_other d k k' v :
  k' <> k -> dict_get k' (dict_set k v d) = dict_get k' d.
Proof.
  intros Hne. induction d as [|[k0 v0] d IH]; simpl.
  - destruct (String.eqb_spec k' k); [contradiction|reflexivity].
  - destruct (String.eqb_spec k k0) as [->|Hk]; simpl.
    + destruct (String.eqb_spec k' k0); [contradiction|reflexivity].
    + destruct (String.eqb_spec k' k0); [reflexivity|exact IH].
Qed.

Lemma dict_get_set d k k' v :
  dict_get k' (dict_set k v d) = if String.eqb k' k then Some v else dict_get k' d.
Proof.
  destruct (String.eqb_spec k' k) as [->|Hne].
  - apply dict_get_set_same.
  - now apply dict_get_set_other.
Qed.

Lemma dict_get_None d k : dict_get k d = None <-> ~ In k (dict_keys d).
Proof.
  induction d as [|[k' v'] d IH]; simpl.
  - tauto.
  - destruct (String.eqb_spec k k') as [->|Hne].
    + split; [discriminate|]. intros H. exfalso. apply H. now left.
    + rewrite IH. split; intros H; [intros [E|E]; [congruence|tauto]|tauto].
Qed.

Lemma In_dict_get d k v :
  NoDup (dict_keys d) -> In (k, v) d -> dict_get k d = Some v.
Proof.
  induction d as [|[k' v'] d IH]; simpl; [tauto|].
  intros Hnd [E|Hin].
  - injection E as -> ->. now rewrite String.eqb_refl.
  - inversion Hnd as [|? ? Hnotin Hnd']; subst.
    destruct (String.eqb_spec k k') as [->|Hne].
    + exfalso. apply Hnotin. change k' with (fst (k', v)).
      now apply in_map.
    + now apply IH.
Qed.

Lemma dict_keys_set d k v :
  dict_keys (dict_set k v d) =
  match dict_get k d with
  | Some _ => dict_keys d
  | None => dict_keys d ++ [k]
  end.
Proof.
  unfold dict_keys.
  induction d as [|[k' v'] d IH]; simpl; [reflexivity|].
  destruct (String.eqb_spec k k') as [->|Hne]; simpl; [reflexivity|].
  rewrite IH. destruct (dict_get k d); reflexivity.
Qed.

Lemma dict_set_NoDup d k v : NoDup (dict_keys d) -> NoDup (dict_keys (dict_set k v d)).
Proof.
  intros Hnd. rewrite dict_keys_set.
  destruct (dict_get k d) eqn:E; [exact Hnd|].
  apply dict_get_None in E.
  apply NoDup_rev in Hnd. rewrite <- (rev_involutive (dict_keys d ++ [k])).
  apply NoDup_rev. rewrite rev_app_distr. simpl. constructor; [|exact Hnd].
  now rewrite <- in_rev.
Qed.
End DictFacts.

(** ** [decode_features] *)

Lemma land_1_testbit (val : Z) : (Z.land val 1 =? 0) = negb (Z.testbit val 0).
Proof.
  change 1 with (Z.ones 1) at 1. rewrite Z.land_ones by lia.
  change (2 ^ 1) with 2. rewrite <- Z.bit0_mod.
  destruct (Z.testbit val 0); reflexivity.
Qed.

Lemma shiftr_zero_bits (n bit : Z) :
  0 <= bit -> Z.shiftr n bit = 0 -> forall b, bit <= b -> Z.testbit n b = false.
Proof.
  intros Hbit H0 b Hb.
  replace b with ((b - bit) + bit) by lia.
  rewrite <- Z.shiftr_spec by lia. rewrite H0. apply Z.bits_0.
Qed.

Lemma decode_features_loop_total (fuel : nat) :
  forall val bit features, 0 <= val < 2 ^ Z.of_nat fuel ->
    exists m, decode_features_loop fuel val bit features = Ret m.
Proof.
  induction fuel as [|fuel IH]; intros val bit features Hval.
  - cbn [decode_features_loop]. change (2 ^ Z.of_nat 0) with 1 in Hval.
    destruct (Z.gtb_spec val 0); [lia|]. now exists features.
  - cbn [decode_features_loop].
    destruct (Z.gtb_spec val 0); [|now exists features].
    apply IH. rewrite Z.shiftr_div_pow2 by lia. change (2 ^ 1) with 2.
    rewrite Nat2Z.inj_succ, Z.pow_succ_r in Hval by lia.
    split; [apply Z.div_pos; lia|].
    apply Z.div_lt_upper_bound; lia.
Qed.

Lemma decode_features_loop_NoDup (fuel : nat) :
  forall val bit features m,
    NoDup (dict_keys features) ->
    decode_features_loop fuel val bit features = Ret m ->
    NoDup (dict_keys m).
Proof.
  induction fuel as [|fuel IH]; intros val bit features m Hnd; cbn [decode_features_loop];
    destruct (val >? 0); try discriminate; try (intros [= <-]; exact Hnd).
  apply IH. destruct (negb (Z.land val 1 =? 0)); [now apply dict_set_NoDup|exact Hnd].
Qed.

(** The invariant of the loop, on the bits of the integer [n] the loop
    started from: when the counter is [bit], [val] is [n >> bit]. *)
Lemma decode_features_loop_spec (n : Z) (fuel : nat) :
  0 <= n ->
  forall bit features m, 0 <= bit ->
    decode_features_loop fuel (Z.shiftr n bit) bit features = Ret m ->
    forall name kind,
      dict_get name m = Some kind <->
      (exists b, bit <= b /\ Z.testbit n b = true /\
         feature_name b = name /\ feature_kind b = kind /\
         forall b', b < b' -> Z.testbit n b' = true -> feature_name b' <> name)
      \/ (dict_get name features = Some kind /\
          forall b, bit <= b -> Z.testbit n b = true -> feature_name b <> name).
Proof.
  intros Hn.
  assert (Hstop : forall bit features name kind, 0 <= bit ->
            ~ 0 < Z.shiftr n bit ->
            dict_get name features = Some kind <->
            (exists b, bit <= b /\ Z.testbit n b = true /\
               feature_name b = name /\ feature_kind b = kind /\
               forall b', b < b' -> Z.testbit n b' = true -> feature_name b' <> name)
            \/ (dict_get name features = Some kind /\
                forall b, bit <= b -> Z.testbit n b = true -> feature_name b <> name)).
  { intros bit features name kind Hbit Hle.
    assert (H0 : Z.shiftr n bit = 0).
    { pose proof (proj2 (Z.shiftr_nonneg n bit) Hn). lia. }
    pose proof (shiftr_zero_bits n bit Hbit H0) as Hz.
    split.
    - intros Hg. right. split; [exact Hg|].
      intros b Hb Ht. rewrite Hz in Ht by exact Hb. discriminate.
    - intros [(b & Hb & Ht & _)|[Hg _]]; [|exact Hg].
      rewrite Hz in Ht by exact Hb. discriminate. }
  induction fuel as [|fuel IH]; intros bit features m Hbit; cbn [decode_features_loop].
  - destruct (Z.gtb_spec (Z.shiftr n bit) 0) as [Hpos|Hle]; [discriminate|].
    intros [= <-] name kind. apply Hstop; [exact Hbit|lia].
  - destruct (Z.gtb_spec (Z.shiftr n bit) 0) as [Hpos|Hle];
      [|intros [= <-] name kind; apply Hstop; [exact Hbit|lia]].
    rewrite Z.shiftr_shiftr by lia. rewrite land_1_testbit, negb_involutive.
    rewrite Z.shiftr_spec by lia. change (0 + bit) with bit.
    intros Hloop name kind.
    rewrite (IH (bit + 1) _ m ltac:(lia) Hloop name kind). clear IH Hloop Hstop.
    destruct (Z.testbit n bit) eqn:Hset.
    + rewrite dict_get_set. split.
      * intros [(b & Hb & Ht & Hname & Hkind & Hmax)|[Hg Hnone]].
        -- left. exists b. repeat split; try assumption; lia.
        -- destruct (String.eqb_spec name (feature_name bit)) as [->|Hne].
           ++ left. exists bit. injection Hg as <-.
              repeat split; try assumption; try lia.
              intros b' Hb'. apply Hnone. lia.
           ++ right. split; [exact Hg|].
              intros b Hb Ht. destruct (Z.eq_dec b bit) as [->|Hnb];
                [congruence | apply Hnone; [lia|exact Ht]].
      * intros [(b & Hb & Ht & Hname & Hkind & Hmax)|[Hg Hnone]].
        -- destruct (Z.eq_dec b bit) as [->|Hnb].
           ++ right. rewrite <- Hname, String.eqb_refl, <- Hkind.
              split; [reflexivity|]. rewrite Hname.
              intros b' Hb'. apply Hmax. lia.
           ++ left. exists b. repeat split; try assumption; lia.
        -- right. pose proof (Hnone bit ltac:(lia) Hset) as Hne.
           destruct (String.eqb_spec name (feature_name bit)) as [E|_]; [congruence|].
           split; [exact Hg|]. intros b Hb. apply Hnone. lia.
    + split.
      * intros [(b & Hb & Ht & Hname & Hkind & Hmax)|[Hg Hnone]].
        -- left. exists b. repeat split; try assumption; lia.
        -- right. split; [exact Hg|].
           intros b Hb Ht. destruct (Z.eq_dec b bit) as [->|Hnb];
             [congruence | apply Hnone; [lia|exact Ht]].
      * intros [(b & Hb & Ht & Hname & Hkind & Hmax)|[Hg Hnone]].
        -- left. exists b. destruct (Z.eq_dec b bit) as [->|Hnb]; [congruence|].
           repeat split; try assumption; lia.
        -- right. split; [exact Hg|]. intros b Hb. apply Hnone. lia.
Qed.

Lemma decode_features_total (feat_bytes : list byte) :
  exists m, decode_features feat_bytes = Ret m.
Proof.
  unfold decode_features. apply decode_features_loop_total.
  rewrite Nat2Z.inj_mul. change (Z.of_nat 8) with 8. fold (len feat_bytes).
  destruct feat_bytes as [|b bs]; [|apply int_from_bytes_big_range].
  split; [lia|]. apply Z.pow_pos_nonneg; [lia|]. change (len (@nil byte)) with 0. lia.
Qed.

Lemma feature_kind_optional (b : Z) : feature_kind b = "optional" <-> Z.odd b = true.
Proof.
  unfold feature_kind. rewrite Zmod_odd.
  destruct (Z.odd b); simpl; split; intros H; try reflexivity; discriminate.
Qed.

Lemma bits_above (n N b : Z) : 0 <= n < 2 ^ N -> N <= b -> Z.testbit n b = false.
Proof.
  intros [Hn Hlt] Hb. destruct (Z.eq_dec n 0) as [->|Hnz]; [apply Z.bits_0|].
  apply Z.bits_above_log2; [exact Hn|].
  assert (Z.log2 n < N) by (apply Z.log2_lt_pow2; lia). lia.
Qed.

(** Among the set bits from [b] up that carry [name] there is a highest
    one, when no bit is set from [b + k] up. *)
Lemma highest_bit_with_name (n : Z) (name : string) (k : nat) :
  forall b, 0 <= b ->
    Z.testbit n b = true -> feature_name b = name ->
    (forall b', b + Z.of_nat k <= b' -> Z.testbit n b' = false) ->
    exists b1, b <= b1 /\ Z.testbit n b1 = true /\ feature_name b1 = name /\
      forall b', b1 < b' -> Z.testbit n b' = true -> feature_name b' <> name.
Proof.
  assert (Hgen : forall b,
             Z.testbit n b = true -> feature_name b = name ->
             (forall b', b + Z.of_nat k <= b' ->
                         ~ (Z.testbit n b' = true /\ feature_name b' = name)) ->
             exists b1, b <= b1 /\ Z.testbit n b1 = true /\ feature_name b1 = name /\
               forall b', b1 < b' -> Z.testbit n b' = true -> feature_name b' <> name).
  { induction k as [|k IH]; intros b Hset Hname Hnone.
    - exfalso. apply (Hnone b); [lia|now split].
    - destruct (Z.testbit n (b + Z.of_nat k)) eqn:Htop;
        [destruct (string_dec (feature_name (b + Z.of_nat k)) name) as [Heq|Hne]|].
      + exists (b + Z.of_nat k). repeat split; try assumption; try lia.
        intros b' Hb' Hset' Hname'. apply (Hnone b'); [lia|now split].
      + apply IH; try assumption. intros b' Hb' [Hset' Hname'].
        destruct (Z.eq_dec b' (b + Z.of_nat k)) as [->|Hd]; [contradiction|].
        apply (Hnone b'); [lia|now split].
      + apply IH; try assumption. intros b' Hb' [Hset' Hname'].
        destruct (Z.eq_dec b' (b + Z.of_nat k)) as [->|Hd]; [congruence|].
        apply (Hnone b'); [lia|now split]. }
  intros b _ Hset Hname Hzero. apply Hgen; try assumption.
  intros b' Hb' [Hset' _]. rewrite Hzero in Hset' by exact Hb'. discriminate.
Qed.

(** C3 (amended).  [decode_features] returns a mapping for every byte
    string; the mapping holds no name twice; it holds the pair
    [(name, kind)] exactly when some set bit of the big-endian integer
    carries [name] and [kind] and no higher set bit carries the same name
    (the name is the table entry of the bit or [unknown_bit_<b>], the kind
    is ["optional"] exactly for an odd bit).  So the name of every set bit
    is in the mapping, with the kind of the highest set bit of that name:
    two set bits that share a name give one pair, the one of the higher
    bit. *)
Theorem decode_features_highest_bit_per_name :
  forall feat_bytes : list byte,
    exists m, decode_features feat_bytes = Ret m /\
      NoDup (dict_keys m) /\
      (forall name kind,
          dict_get name m = Some kind <->
          reported (int_from_bytes_big feat_bytes) name kind) /\
      (forall b, 0 <= b -> Z.testbit (int_from_bytes_big feat_bytes) b = true ->
                 exists kind, dict_get (feature_name b) m = Some kind) /\
      (forall b, feature_kind b = "optional" <-> Z.odd b = true).
Proof.
  intros feat_bytes.
  destruct (decode_features_total feat_bytes) as [m Hm].
  exists m. split; [exact Hm|].
  unfold decode_features in Hm.
  assert (Hint : match feat_bytes with
                 | [] => 0
                 | _ :: _ => int_from_bytes_big feat_bytes
                 end = int_from_bytes_big feat_bytes)
    by (destruct feat_bytes; reflexivity).
  rewrite Hint in Hm. clear Hint.
  pose proof (int_from_bytes_big_range feat_bytes) as Hrange.
  assert (Hiff : forall name kind,
             dict_get name m = Some kind <->
             reported (int_from_bytes_big feat_bytes) name kind).
  { intros name kind. destruct Hrange as [Hn _].
    rewrite <- (Z.shiftr_0_r (int_from_bytes_big feat_bytes)) in Hm at 1.
    rewrite (decode_features_loop_spec _ _ Hn 0 [] m ltac:(lia) Hm name kind).
    unfold reported. split.
    - intros [H|[H _]]; [exact H|discriminate H].
    - intros H. left. exact H. }
  split; [|split; [exact Hiff|split]].
  - eapply decode_features_loop_NoDup; [|exact Hm]. constructor.
  - intros b Hb Hset.
    destruct (highest_bit_with_name (int_from_bytes_big feat_bytes) (feature_name b)
                (Z.to_nat (8 * len feat_bytes)) b Hb Hset eq_refl)
      as (b1 & Hb1 & Hset1 & Hname1 & Hmax).
    { intros b' Hb'. apply (bits_above _ (8 * len feat_bytes)); [exact Hrange|].
      pose proof (len_nonneg feat_bytes). lia. }
    exists (feature_kind b1). apply Hiff. exists b1.
    repeat split; try assumption. lia.
  - exact feature_kind_optional.
Qed.

(** C3, as stated, fails on the bitmap [03]: bits 0 and 1 are both set and
    share the name [data_loss_protect]; the mapping holds the pair of
    bit 1 only. *)
Lemma every_set_bit_reported_fails : ~ every_set_bit_reported [x03].
Proof.
  intros H.
  specialize (H [("data_loss_protect", "optional")] 0 eq_refl ltac:(lia) eq_refl).
  vm_compute in H. discriminate H.
Qed.

(** ** [parse_addresses] never raises and terminates *)


(** Read [data[i]] where the index is known to be inside the buffer. *)
Ltac read_index :=
  match goal with
  | |- context [index ?data ?i] =>
    let b := fresh "b" in
    let E := fresh "E" in
    destruct (index_inside data i) as (b & _ & E); [lia|];
    rewrite E; cbn [bind]; clear E;
    pose proof (byte_val_range b)
  end.

(** Split on the test the body is about to take. *)
Ltac head_if :=
  match goal with
  | |- exists s, (if ?a >? ?b then _ else _) = _ /\ _ => destruct (Z.gtb_spec a b)
  | |- exists s, (if ?a =? ?b then _ else _) = _ /\ _ => destruct (Z.eqb_spec a b)
  end.

Ltac finish_step :=
  eexists; split; [reflexivity | first [exact I | split; [lia | eauto]]].

Lemma ipv6_groups_total (data : list byte) (off : Z) :
  0 <= off -> off + 16 <= len data ->
  exists groups,
    mapM (fun i => hi <- index data (off + i) ;;
                   lo <- index data (off + i + 1) ;;
                   Ret (hex_byte hi +++ hex_byte lo)) range_0_16_2 = Ret groups.
Proof.
  intros Hoff Hlen. unfold range_0_16_2. cbn [mapM].
  repeat read_index. eexists. reflexivity.
Qed.

Lemma parse_addresses_body_progress (data : list byte) (off : Z) (addrs : list Address) :
  0 <= off < len data ->
  exists s, parse_addresses_body data off addrs = Ret s /\
    match s with
    | Continue off' addrs' =>
      off + 1 <= off' <= len data /\ exists a, addrs' = addrs ++ [a]
    | Break => True
    end.
Proof.
  intros Hoff. unfold parse_addresses_body. read_index.
  repeat head_if; try finish_step.
  - destruct (ipv6_groups_total data (off + 1)) as [groups ->]; [lia|lia|].
    cbn [bind]. finish_step.
  - read_index. head_if; finish_step.
Qed.

Lemma parse_addresses_loop_total (fuel : nat) :
  forall data off addrs,
    0 <= off -> len data - off <= Z.of_nat fuel ->
    exists l, parse_addresses_loop fuel data off addrs = Ret l.
Proof.
  induction fuel as [|fuel IH]; intros data off addrs Hoff Hfuel;
    cbn [parse_addresses_loop]; destruct (Z.ltb_spec off (len data)) as [Hlt|Hge];
    try (now exists addrs); [lia|].
  destruct (parse_addresses_body_progress data off addrs ltac:(lia)) as (s & -> & Hs).
  cbn [bind]. destruct s as [off' addrs'|]; [|now exists addrs].
  apply IH; lia.
Qed.

(** C10.  [parse_addresses] returns a list for every byte string: no
    subscript is out of range and the loop ends.  Each pass through the
    loop body at an offset inside the buffer either leaves the loop or
    goes on at an offset that is at least one greater and not beyond the
    end of the buffer. *)
Theorem parse_addresses_total :
  forall data : list byte,
    (exists addrs, parse_addresses data = Ret addrs) /\
    (forall off addrs, 0 <= off < len data ->
       exists s, parse_addresses_body data off addrs = Ret s /\
         match s with
         | Continue off' _ => off + 1 <= off' <= len data
         | Break => True
         end).
Proof.
  intros data. split.
  - apply parse_addresses_loop_total; unfold len; lia.
  - intros off addrs Hoff.
    destruct (parse_addresses_body_progress data off addrs Hoff) as (s & Hs & Hprog).
    exists s. split; [exact Hs|]. destruct s; [tauto|exact I].
Qed.

Lemma parse_addresses_total_witness :
  (exists addrs, parse_addresses [x01; x7f; x00; x00; x01; x26; x07; x09] = Ret addrs) /\
  (exists s, parse_addresses_body [x01; x7f; x00; x00; x01; x26; x07; x09] 0 [] = Ret s /\
     match s with
     | Continue off' _ => 0 + 1 <= off' <= len [x01; x7f; x00; x00; x01; x26; x07; x09]
     | Break => True
     end).
Proof.
  destruct (parse_addresses_total [x01; x7f; x00; x00; x01; x26; x07; x09]) as [H1 H2].
  split; [exact H1|]. apply H2. vm_compute. split; [discriminate|reflexivity].
Defined.

(** ** [parse_addresses] returns the readable descriptors *)

Lemma len_drop {A : Type} (n : Z) (l : list A) :
  0 <= n <= len l -> len (drop n l) = len l - n.
Proof. intros H. unfold drop, len in *. rewrite length_skipn. lia. Qed.

Lemma take_take {A : Type} (i j : Z) (l : list A) :
  0 <= i <= j -> take i (take j l) = take i l.
Proof.
  intros H. unfold take. rewrite firstn_firstn. f_equal. lia.
Qed.

Lemma drop_take {A : Type} (i n : Z) (l : list A) :
  0 <= i -> 0 <= n -> drop i (take (i + n) l) = take n (drop i l).
Proof.
  intros Hi Hn. unfold take, drop. rewrite firstn_skipn_comm. do 2 f_equal. lia.
Qed.

Lemma drop_drop {A : Type} (i j : Z) (l : list A) :
  0 <= i -> 0 <= j -> drop i (drop j l) = drop (j + i) l.
Proof.
  intros Hi Hj. unfold drop. rewrite skipn_skipn. f_equal. lia.
Qed.

Section Suffix.
(** The buffer [data] seen from the offset [off] of a tag byte. *)
Variables (data : list byte) (off : Z) (tag : byte) (after : list byte).
Hypothesis Hoff : 0 <= off.
Hypothesis Hsuffix : skipn (Z.to_nat off) data = tag :: after.

Lemma suffix_len : len data = off + 1 + len after.
Proof.
  pose proof (f_equal (@List.length byte) Hsuffix) as H.
  rewrite length_skipn in H. simpl in H. unfold len. lia.
Qed.

Lemma suffix_data : data = firstn (Z.to_nat off) data ++ tag :: after.
Proof. rewrite <- Hsuffix. symmetry. apply firstn_skipn. Qed.

Lemma suffix_prefix_length : List.length (firstn (Z.to_nat off) data) = Z.to_nat off.
Proof.
  rewrite length_firstn. pose proof suffix_len as H.
  pose proof (len_nonneg after). unfold len in *. lia.
Qed.

Lemma suffix_nth (k : nat) :
  nth_error data (Z.to_nat off + k) = nth_error (tag :: after) k.
Proof.
  rewrite suffix_data at 1.
  rewrite nth_error_app2 by (rewrite suffix_prefix_length; lia).
  rewrite suffix_prefix_length. f_equal. lia.
Qed.

Lemma index_tag : index data off = Ret (byte_val tag).
Proof.
  unfold index. destruct (Z.ltb_spec off 0); [lia|].
  destruct (Z.ltb_spec off 0); [lia|].
  replace (Z.to_nat off) with (Z.to_nat off + 0)%nat by lia.
  now rewrite suffix_nth.
Qed.

Lemma index_after (a k : Z) :
  a = off + 1 + k -> 0 <= k -> index data a = index after k.
Proof.
  intros -> Hk. unfold index.
  destruct (Z.ltb_spec (off + 1 + k) 0); [lia|].
  destruct (Z.ltb_spec (off + 1 + k) 0); [lia|].
  destruct (Z.ltb_spec k 0); [lia|].
  destruct (Z.ltb_spec k 0); [lia|].
  replace (Z.to_nat (off + 1 + k)) with (Z.to_nat off + S (Z.to_nat k))%nat by lia.
  now rewrite suffix_nth.
Qed.

Lemma slice_after (a b k n : Z) :
  a = off + 1 + k -> b = a + n -> 0 <= k -> 0 <= n -> k + n <= len after ->
  slice data a b = take n (drop k after).
Proof.
  intros -> -> Hk Hn Hlen. pose proof suffix_len as Hl.
  rewrite slice_inside by lia. unfold take, drop.
  replace (off + 1 + k + n - (off + 1 + k)) with n by lia. f_equal.
  replace (Z.to_nat (off + 1 + k)) with (Z.to_nat k + (1 + Z.to_nat off))%nat by lia.
  rewrite <- skipn_skipn. cbn [Nat.add]. rewrite <- (skipn_skipn 1).
  rewrite Hsuffix. reflexivity.
Qed.
End Suffix.

Lemma ipv6_groups_after (data : list byte) (off : Z) (tag : byte) (after : list byte) :
  0 <= off -> skipn (Z.to_nat off) data = tag :: after -> 16 <= len after ->
  mapM (fun i => hi <- index data (off + 1 + i) ;;
                 lo <- index data (off + 1 + i + 1) ;;
                 Ret (hex_byte hi +++ hex_byte lo)) range_0_16_2
  = Ret (hex_groups (take 16 after)).
Proof.
  intros Hoff Hs Hlen. unfold range_0_16_2. cbn [mapM].
  repeat match goal with
  | |- context [index data (off + 1 + ?i + 1)] =>
    rewrite (index_after data off tag after Hoff Hs (off + 1 + i + 1) (i + 1)) by lia
  | |- context [index data (off + 1 + ?i)] =>
    rewrite (index_after data off tag after Hoff Hs (off + 1 + i) i) by lia
  end.
  clear Hs.
  do 16 (destruct after as [|? after]; [unfold len in Hlen; simpl in Hlen; lia|]).
  reflexivity.
Qed.

Lemma parse_addresses_body_refines (data : list byte) (off : Z) (addrs : list Address) :
  0 <= off < len data ->
  parse_addresses_body data off addrs =
  Ret match read_descriptor (drop off data) with
      | Some (a, rest) => Continue (len data - len rest) (addrs ++ [a])
      | None => Break
      end.
Proof.
  intros [Hoff Hlt]. unfold drop.
  destruct (skipn (Z.to_nat off) data) as [|tag after] eqn:Hs.
  { apply (f_equal (@List.length byte)) in Hs. rewrite length_skipn in Hs.
    unfold len in Hlt. simpl in Hs. lia. }
  pose proof (suffix_len data off tag after Hoff Hs) as Hlen.
  pose proof (len_nonneg after) as Hafter.
  unfold parse_addresses_body. rewrite (index_tag data off tag after Hoff Hs). cbn [bind].
  unfold read_descriptor, body_length, descriptor.
  destruct (Z.eqb_spec (byte_val tag) 1) as [E1|N1].
  - destruct (Z.gtb_spec (off + 1 + 6) (len data)), (Z.ltb_spec (len after) (4 + 2));
      try lia; [reflexivity|].
    rewrite (slice_after data off tag after Hoff Hs (off + 1) (off + 1 + 4) 0 4) by lia.
    rewrite (slice_after data off tag after Hoff Hs (off + 1 + 4) (off + 1 + 6) 4 2) by lia.
    rewrite len_drop by lia. rewrite take_take by lia. rewrite (drop_take 4 2) by lia.
    change (drop 0 after) with after.
    do 2 f_equal; lia.
  - destruct (Z.eqb_spec (byte_val tag) 2) as [E2|N2].
    { destruct (Z.gtb_spec (off + 1 + 18) (len data)), (Z.ltb_spec (len after) (16 + 2));
        try lia; [reflexivity|].
      rewrite (ipv6_groups_after data off tag after Hoff Hs) by lia. cbn [bind].
      rewrite (slice_after data off tag after Hoff Hs (off + 1 + 16) (off + 1 + 18) 16 2) by lia.
      rewrite len_drop by lia. rewrite take_take by lia. rewrite (drop_take 16 2) by lia.
      do 2 f_equal; lia. }
    destruct (Z.eqb_spec (byte_val tag) 3) as [E3|N3].
    { destruct (Z.gtb_spec (off + 1 + 12) (len data)), (Z.ltb_spec (len after) (10 + 2));
        try lia; [reflexivity|].
      rewrite len_drop by lia. do 2 f_equal; lia. }
    destruct (Z.eqb_spec (byte_val tag) 4) as [E4|N4].
    { destruct (Z.gtb_spec (off + 1 + 37) (len data)), (Z.ltb_spec (len after) (35 + 2));
        try lia; [reflexivity|].
      rewrite len_drop by lia. do 2 f_equal; lia. }
    destruct (Z.eqb_spec (byte_val tag) 5) as [E5|N5]; [|reflexivity].
    destruct after as [|h after'].
    { destruct (Z.gtb_spec (off + 1 + 1) (len data)); [reflexivity|].
      change (len (@nil byte)) with 0 in Hlen. lia. }
    set (after := h :: after') in *.
    assert (Hcons : len after = 1 + len after') by apply len_cons.
    pose proof (len_nonneg after') as Hafter'.
    pose proof (byte_val_range h) as Hh.
    destruct (Z.gtb_spec (off + 1 + 1) (len data)); [lia|].
    rewrite (index_after data off tag after Hoff Hs (off + 1) 0) by lia.
    change (index after 0) with (Ret (byte_val h)). cbn [bind].
    destruct (Z.gtb_spec (off + 1 + 1 + byte_val h + 2) (len data)),
             (Z.ltb_spec (len after) (1 + byte_val h + 2)); try lia; [reflexivity|].
    rewrite (slice_after data off tag after Hoff Hs
               (off + 1 + 1) (off + 1 + 1 + byte_val h) 1 (byte_val h)) by lia.
    rewrite (slice_after data off tag after Hoff Hs
               (off + 1 + 1 + byte_val h) (off + 1 + 1 + byte_val h + 2)
               (1 + byte_val h) 2) by lia.
    rewrite len_drop by lia.
    assert (Hhead : match take (1 + byte_val h + 2) after with
                    | [] => 0
                    | b :: _ => byte_val b
                    end = byte_val h).
    { unfold take, after.
      replace (Z.to_nat (1 + byte_val h + 2)) with (S (Z.to_nat (byte_val h + 2))) by lia.
      reflexivity. }
    rewrite Hhead. rewrite (drop_take (1 + byte_val h) 2) by lia.
    replace (1 + byte_val h + 2) with (1 + (byte_val h + 2)) at 2 by lia.
    rewrite (drop_take 1 (byte_val h + 2)) by lia. rewrite take_take by lia.
    do 2 f_equal; lia.
Qed.

Lemma read_descriptor_rest (s rest : list byte) (a : Address) :
  read_descriptor s = Some (a, rest) ->
  exists n, 0 <= n /\ 1 + n <= len s /\ rest = drop (1 + n) s.
Proof.
  unfold read_descriptor. destruct s as [|tag after]; [discriminate|].
  destruct (body_length (byte_val tag) after) as [n|] eqn:Hn; [|discriminate].
  destruct (Z.ltb_spec (len after) n) as [|Hle]; [discriminate|].
  intros [= _ <-].
  assert (0 <= n).
  { unfold body_length in Hn.
    repeat match type of Hn with
           | (if ?c then _ else _) = _ => destruct c
           end; try (injection Hn as <-; lia); try discriminate.
    destruct after as [|h ?]; [discriminate|].
    assert (E : n = 1 + byte_val h + 2) by congruence.
    pose proof (byte_val_range h). lia. }
  exists n. rewrite len_cons. repeat split; try lia.
  unfold drop. replace (Z.to_nat (1 + n)) with (S (Z.to_nat n)) by lia. reflexivity.
Qed.

Lemma readable_prefix_total (s : list byte) : exists l, readable_prefix s l.
Proof.
  remember (List.length s) as k eqn:Hk.
  revert s Hk. induction k as [k IH] using lt_wf_ind. intros s Hk.
  destruct (read_descriptor s) as [[a rest]|] eqn:Hr.
  - destruct (read_descriptor_rest s rest a Hr) as (n & Hn & Hlen & Hrest).
    destruct (IH (List.length rest)) with (s := rest) as [l Hl]; [|reflexivity|].
    + subst rest k. unfold drop, len in *. rewrite length_skipn. lia.
    + exists (a :: l). eapply readable_next; eassumption.
  - exists []. now apply readable_stop.
Qed.

Lemma parse_addresses_loop_refines (data : list byte) (s : list byte) (l : list Address) :
  readable_prefix s l ->
  forall fuel off addrs,
    0 <= off <= len data -> s = drop off data ->
    len data - off <= Z.of_nat fuel ->
    parse_addresses_loop fuel data off addrs = Ret (addrs ++ l).
Proof.
  induction 1 as [s Hstop|s rest a l Hread Hrest IH];
    intros fuel off addrs Hoff Hs Hfuel; subst s.
  - destruct fuel as [|fuel]; cbn [parse_addresses_loop];
      destruct (Z.ltb_spec off (len data)) as [Hlt|Hge];
      try (now rewrite app_nil_r); [lia|].
    rewrite parse_addresses_body_refines by lia. rewrite Hstop. cbn [bind].
    now rewrite app_nil_r.
  - destruct (read_descriptor_rest _ _ _ Hread) as (n & Hn & Hlen & Hdrop).
    rewrite len_drop in Hlen by lia.
    rewrite drop_drop in Hdrop by lia.
    destruct fuel as [|fuel]; cbn [parse_addresses_loop];
      destruct (Z.ltb_spec off (len data)) as [Hlt|Hge]; try lia.
    rewrite parse_addresses_body_refines by lia. rewrite Hread. cbn [bind].
    assert (Hlr : len rest = len data - (off + (1 + n)))
      by (rewrite Hdrop; apply len_drop; lia).
    rewrite (IH fuel (len data - len rest) (addrs ++ [a])).
    + now rewrite <- app_assoc.
    + lia.
    + rewrite Hdrop at 1. f_equal. lia.
    + lia.
Qed.

(** C6.  Every address list has a list of descriptors readable in full
    from its head up to the first place where the tag is not one of 1 to
    5 or the bytes left do not suffice for the body; [parse_addresses]
    returns exactly that list, and never fails.  One IPv4 descriptor
    followed by any three bytes gives that one address. *)
Theorem parse_addresses_readable_prefix :
  (forall data, exists l, readable_prefix data l /\ parse_addresses data = Ret l) /\
  (forall data l, readable_prefix data l -> parse_addresses data = Ret l) /\
  (forall e1 e2 e3,
      parse_addresses ([x01; x7f; x00; x00; x01; x26; x07] ++ [e1; e2; e3])
      = Ret [mkAddress "ipv4" "127.0.0.1:9735"]).
Proof.
  assert (Hmain : forall data l, readable_prefix data l -> parse_addresses data = Ret l).
  { intros data l Hl. unfold parse_addresses.
    apply (parse_addresses_loop_refines data data l Hl (List.length data) 0 []).
    - pose proof (len_nonneg data). lia.
    - reflexivity.
    - unfold len. lia. }
  split; [|split].
  - intros data. destruct (readable_prefix_total data) as [l Hl].
    exists l. split; [exact Hl|]. now apply Hmain.
  - exact Hmain.
  - intros e1 e2 e3. apply Hmain.
    apply readable_next with (rest := [e1; e2; e3]); [reflexivity|].
    apply readable_stop. unfold read_descriptor, body_length.
    pose proof (byte_val_range e2) as He2.
    repeat match goal with
           | |- context [byte_val e1 =? ?k] => destruct (Z.eqb_spec (byte_val e1) k)
           end; try reflexivity.
    change (len [e2; e3]) with 2.
    destruct (Z.ltb_spec 2 (1 + byte_val e2 + 2)); [reflexivity|lia].
Qed.

Lemma parse_addresses_readable_prefix_witness :
  parse_addresses [x03; x00; x00; x00; x00; x00; x00; x00; x00; x00; x00; x00; x00; x09; x09]
  = Ret [mkAddress "torv2" "torv2"].
Proof.
  apply (proj1 (proj2 parse_addresses_readable_prefix)).
  apply readable_next with (rest := [x09; x09]); [reflexivity|].
  apply readable_stop. reflexivity.
Defined.

(** ** Node and channel announcements *)

Lemma slice_from {A : Type} (l : list A) (i n : Z) :
  0 <= i <= len l -> 0 <= n -> slice l i (i + n) = take n (drop i l).
Proof.
  intros Hi Hn. rewrite slice_nonneg by lia. unfold take, drop.
  rewrite (Z.min_l i) by lia.
  destruct (Z.le_gt_cases (i + n) (len l)) as [H|H].
  - rewrite Z.min_l by lia. do 2 f_equal. lia.
  - rewrite Z.min_r by lia.
    rewrite !firstn_all2; try reflexivity; rewrite length_skipn; unfold len in *; lia.
Qed.

Lemma parse_node_announcement_unfold (raw : list byte) :
  parse_node_announcement raw =
  if len raw <? 2 + 4 + 33 + 3 + 32 + 2 then Ret None
  else if 2 + flen_of raw + 4 + 33 + 3 + 32 + 2 >? len raw then Ret None
  else
    let features := slice raw 2 (2 + flen_of raw) in
    let off := 2 + flen_of raw in
    addresses <- parse_addresses
                   (slice raw (off + 4 + 33 + 3 + 32 + 2)
                              (off + 4 + 33 + 3 + 32 + 2 + addrlen_of raw)) ;;
    decoded <- decode_features features ;;
    Ret (Some (mkNodeRecord
                 (hex (slice raw (off + 4) (off + 4 + 33)))
                 (utf8_decode_replace
                    (rstrip_zero (slice raw (off + 4 + 33 + 3) (off + 4 + 33 + 3 + 32))))
                 ("#" +++ hex (slice raw (off + 4 + 33) (off + 4 + 33 + 3)))
                 (int_from_bytes_big (slice raw off (off + 4)))
                 (flen_of raw) (hex_or_empty features) decoded addresses
                 (map type addresses))).
Proof. reflexivity. Qed.

Lemma parse_node_announcement_accepts (raw : list byte) :
  ~ node_malformed raw ->
  exists r, parse_node_announcement raw = Ret (Some r) /\
    flen r = flen_of raw /\
    decode_features (take (flen_of raw) (drop 2 raw)) = Ret (features r) /\
    features_hex r = hex_or_empty (take (flen_of raw) (drop 2 raw)) /\
    parse_addresses
      (take (addrlen_of raw) (drop (2 + flen_of raw + 4 + 33 + 3 + 32 + 2) raw))
    = Ret (addresses r).
Proof.
  unfold node_malformed. intros Hok.
  pose proof (int_from_bytes_big_range (slice raw 0 2)) as [Hflen _]. fold (flen_of raw) in Hflen.
  assert (Haddrlen : 0 <= addrlen_of raw) by apply int_from_bytes_big_range.
  rewrite parse_node_announcement_unfold.
  destruct (Z.ltb_spec (len raw) (2 + 4 + 33 + 3 + 32 + 2)); [lia|].
  destruct (Z.gtb_spec (2 + flen_of raw + 4 + 33 + 3 + 32 + 2) (len raw)); [lia|].
  cbv zeta.
  rewrite (slice_from raw 2 (flen_of raw)) by lia.
  rewrite (slice_from raw (2 + flen_of raw + 4 + 33 + 3 + 32 + 2) (addrlen_of raw)) by lia.
  destruct (parse_addresses_loop_total
              (List.length (take (addrlen_of raw)
                              (drop (2 + flen_of raw + 4 + 33 + 3 + 32 + 2) raw)))
              (take (addrlen_of raw) (drop (2 + flen_of raw + 4 + 33 + 3 + 32 + 2) raw))
              0 []) as [addrs Haddrs]; [lia|unfold len; lia|].
  fold (parse_addresses
          (take (addrlen_of raw) (drop (2 + flen_of raw + 4 + 33 + 3 + 32 + 2) raw)))
    in Haddrs.
  rewrite Haddrs. cbn [bind].
  destruct (decode_features_total (take (flen_of raw) (drop 2 raw))) as [decoded Hdec].
  rewrite Hdec. cbn [bind].
  eexists. split; [reflexivity|]. cbn. auto.
Qed.

Lemma parse_node_announcement_rejects (raw : list byte) :
  node_malformed raw -> parse_node_announcement raw = Ret None.
Proof.
  unfold node_malformed. intros Hbad. rewrite parse_node_announcement_unfold.
  destruct (Z.ltb_spec (len raw) (2 + 4 + 33 + 3 + 32 + 2)); [reflexivity|].
  destruct (Z.gtb_spec (2 + flen_of raw + 4 + 33 + 3 + 32 + 2) (len raw)); [reflexivity|lia].
Qed.

(** What [parse_node_announcement] tests: it returns [None] exactly when
    the buffer is shorter than the fixed fields (2+4+33+3+32+2 bytes) or
    [flen] puts the end of the fixed fields beyond the end of the buffer.
    [addrlen] is not tested: otherwise a record is returned, and its
    addresses are parsed from the [addrlen] bytes after the [addrlen]
    field, or from all the bytes left when they are fewer. *)
Theorem parse_node_announcement_malformed :
  forall raw : list byte,
    (parse_node_announcement raw = Ret None <-> node_malformed raw) /\
    (~ node_malformed raw ->
     exists r, parse_node_announcement raw = Ret (Some r) /\
       flen r = flen_of raw /\
       parse_addresses
         (take (addrlen_of raw) (drop (2 + flen_of raw + 4 + 33 + 3 + 32 + 2) raw))
       = Ret (addresses r)).
Proof.
  intros raw.
  assert (Hacc : ~ node_malformed raw ->
                 exists r, parse_node_announcement raw = Ret (Some r) /\
                   flen r = flen_of raw /\
                   parse_addresses
                     (take (addrlen_of raw)
                        (drop (2 + flen_of raw + 4 + 33 + 3 + 32 + 2) raw))
                   = Ret (addresses r)).
  { intros Hok.
    destruct (parse_node_announcement_accepts raw Hok) as (r & Hr & Hf & _ & _ & Ha).
    exists r. auto. }
  split; [|exact Hacc]. split.
  - intros Hnone.
    assert (Hdec : node_malformed raw \/ ~ node_malformed raw)
      by (unfold node_malformed; lia).
    destruct Hdec as [Hbad|Hok]; [exact Hbad|].
    destruct (Hacc Hok) as (r & Hr & _). congruence.
  - apply parse_node_announcement_rejects.
Qed.

Lemma parse_node_announcement_malformed_witness :
  exists r, parse_node_announcement overlong_addrlen_payload = Ret (Some r) /\
    flen r = flen_of overlong_addrlen_payload /\
    parse_addresses
      (take (addrlen_of overlong_addrlen_payload)
         (drop (2 + flen_of overlong_addrlen_payload + 4 + 33 + 3 + 32 + 2)
            overlong_addrlen_payload))
    = Ret (addresses r).
Proof.
  apply (proj2 (parse_node_announcement_malformed overlong_addrlen_payload)).
  unfold node_malformed. vm_compute. intros [H|H]; discriminate H.
Defined.

(** The rejection rule of the specification is not the one the decoder
    applies: on a 76-byte payload with [flen] 0 and [addrlen] 1, [addrlen]
    leads one byte past the end, yet a record is returned. *)
Lemma node_rejected_as_stated_fails : ~ node_rejected_as_stated overlong_addrlen_payload.
Proof.
  unfold node_rejected_as_stated. intros [_ H].
  assert (Hbad : node_malformed_as_stated overlong_addrlen_payload).
  { unfold node_malformed_as_stated. right. right. vm_compute. reflexivity. }
  specialize (H Hbad). vm_compute in H. discriminate H.
Qed.

(** C2 (evaluation of the code).  On the example payload with [addrlen]
    0007 and its last byte missing (84 bytes) the length test and the
    [flen] test of [parse_node_announcement] pass, [addrlen] leads one
    byte past the end of the buffer, which the specification rejects as
    malformed, and the decoder returns a record: the address bytes are cut
    short without notice and the record has no address. *)
Theorem parse_node_announcement_overlong_addrlen :
  2 + 4 + 33 + 3 + 32 + 2 <= len cut_address_payload /\
  2 + flen_of cut_address_payload + 4 + 33 + 3 + 32 + 2 + addrlen_of cut_address_payload
  > len cut_address_payload /\
  node_malformed_as_stated cut_address_payload /\
  parse_node_announcement cut_address_payload
  = Ret (Some (mkNodeRecord example_node_id "Test" "#000000" 1 2 "0002"
                 [("data_loss_protect", "optional")] [] [])).
Proof.
  split; [vm_compute; discriminate|]. split; [vm_compute; reflexivity|].
  split; [right; right; vm_compute; reflexivity|]. vm_compute. reflexivity.
Qed.

(** C9.  [decode_features] of the empty byte string returns the empty
    mapping, and the hexadecimal form kept of it is the empty string; a
    node announcement long enough whose [flen] is 0 is decoded to a record
    with these two values. *)
Theorem decode_features_empty :
  decode_features [] = Ret [] /\
  hex_or_empty [] = "" /\
  (forall raw : list byte,
      2 + 4 + 33 + 3 + 32 + 2 <= len raw -> flen_of raw = 0 ->
      exists r, parse_node_announcement raw = Ret (Some r) /\
        flen r = 0 /\ features r = [] /\ features_hex r = "").
Proof.
  split; [reflexivity|]. split; [reflexivity|].
  intros raw Hlen Hflen.
  destruct (parse_node_announcement_accepts raw) as (r & Hr & Hf & Hdec & Hhex & _).
  { unfold node_malformed. lia. }
  rewrite Hflen in *. change (take 0 (drop 2 raw)) with (@nil byte) in *.
  exists r. repeat split; try assumption.
  change (decode_features []) with (Ret (@nil (string * string))) in Hdec. congruence.
Qed.

Lemma decode_features_empty_witness :
  exists r, parse_node_announcement (repeat x00 76) = Ret (Some r) /\
    flen r = 0 /\ features r = [] /\ features_hex r = "".
Proof.
  apply (proj2 (proj2 decode_features_empty)).
  - vm_compute. discriminate.
  - reflexivity.
Defined.


(** C1 (evaluation of the code).  On the 174-byte payload [ffff] followed
    by 172 zero bytes the length test of [parse_channel_announcement]
    passes, [flen] is 65535 and leads far beyond the end, and the decoder
    returns a record: its features are the 172 bytes left, and the
    channel id and the node ids are read from nothing. *)
Theorem parse_channel_announcement_overlong_flen :
  2 + 32 + 8 + 4 * 33 <= len overlong_flen_payload /\
  2 + flen_of overlong_flen_payload > len overlong_flen_payload /\
  parse_channel_announcement overlong_flen_payload
  = Ret (Some (mkChannelRecord 0 "" "" 65535 (hex (repeat x00 172)) [])).
Proof.
  split; [vm_compute; discriminate|]. split; vm_compute; reflexivity.
Qed.

(** C8 (amended).  The example payload with [addrlen] 0006 decodes to
    [flen] 2, the feature [data_loss_protect] optional, timestamp 1, alias
    [Test] and no address: the six bytes end before the descriptor does.
    With [addrlen] 0007 the one address is IPv4 127.0.0.1:9735. *)
Theorem parse_node_announcement_example :
  len (example_payload x06) = 85 /\
  parse_node_announcement (example_payload x06)
  = Ret (Some (mkNodeRecord example_node_id "Test" "#000000" 1 2 "0002"
                 [("data_loss_protect", "optional")] [] [])) /\
  parse_node_announcement (example_payload x07)
  = Ret (Some (mkNodeRecord example_node_id "Test" "#000000" 1 2 "0002"
                 [("data_loss_protect", "optional")]
                 [mkAddress "ipv4" "127.0.0.1:9735"] ["ipv4"])).
Proof.
  split; [reflexivity|]. split; vm_compute; reflexivity.
Qed.

(** C8, as stated, fails: the record decoded from the example payload has
    no address. *)
Lemma example_as_stated_fails : ~ example_as_stated.
Proof.
  intros (r & Hr & _ & _ & _ & _ & Haddr).
  vm_compute in Hr. injection Hr as <-. discriminate Haddr.
Qed.

(** ** The index keeps the latest record of every node *)

Lemma dict_get_keep_latest (acc : dict NodeRecord) (r : NodeRecord) (k : string) :
  dict_get k (keep_latest acc r) =
  if String.eqb k (node_id r) then
    match dict_get k acc with
    | None => Some r
    | Some stored => if timestamp r >? timestamp stored then Some r else Some stored
    end
  else dict_get k acc.
Proof.
  unfold keep_latest.
  destruct (String.eqb_spec k (node_id r)) as [->|Hne].
  - destruct (dict_get (node_id r) acc) as [stored|] eqn:E.
    + destruct (timestamp r >? timestamp stored); [apply dict_get_set_same|exact E].
    + apply dict_get_set_same.
  - destruct (dict_get (node_id r) acc) as [stored|].
    + destruct (timestamp r >? timestamp stored); [now apply dict_get_set_other|reflexivity].
    + now apply dict_get_set_other.
Qed.

Lemma keep_latest_NoDup (acc : dict NodeRecord) (r : NodeRecord) :
  NoDup (dict_keys acc) -> NoDup (dict_keys (keep_latest acc r)).
Proof.
  intros Hnd. unfold keep_latest.
  destruct (dict_get (node_id r) acc) as [stored|].
  - destruct (timestamp r >? timestamp stored); [now apply dict_set_NoDup|exact Hnd].
  - now apply dict_set_NoDup.
Qed.

Lemma index_records_snoc (rs : list NodeRecord) (x : NodeRecord) (acc : dict NodeRecord) :
  index_records (rs ++ [x]) acc = keep_latest (index_records rs acc) x.
Proof. unfold index_records. now rewrite fold_left_app. Qed.

Lemma index_records_invariant (rs : list NodeRecord) :
  NoDup (dict_keys (index_records rs [])) /\
  (forall nid r, dict_get nid (index_records rs []) = Some r ->
                 node_id r = nid /\ survivor_of rs r) /\
  (forall r', In r' rs -> dict_get (node_id r') (index_records rs []) <> None).
Proof.
  induction rs as [|x rs (IHnd & IHsurv & IHseen)] using rev_ind.
  - repeat split; try constructor; try discriminate. intros r' [].
  - rewrite index_records_snoc. set (idx := index_records rs []) in *.
    split; [now apply keep_latest_NoDup|]. split.
    + intros nid r. rewrite dict_get_keep_latest.
      destruct (String.eqb_spec nid (node_id x)) as [->|Hne].
      * destruct (dict_get (node_id x) idx) as [stored|] eqn:E.
        -- destruct (IHsurv _ _ E) as (Hid & before & after & Hrs & Hbefore & Hafter).
           destruct (Z.gtb_spec (timestamp x) (timestamp stored)) as [Hgt|Hle];
             intros [= <-].
           ++ split; [reflexivity|]. exists rs, []. split; [reflexivity|].
              split; [|intros r' []].
              intros r' Hin Hr'. rewrite Hrs in Hin.
              apply in_app_or in Hin. destruct Hin as [Hin|[<-|Hin]].
              ** specialize (Hbefore r' Hin ltac:(congruence)). lia.
              ** lia.
              ** specialize (Hafter r' Hin ltac:(congruence)). lia.
           ++ split; [exact Hid|]. exists before, (after ++ [x]).
              split; [rewrite Hrs, <- app_assoc; reflexivity|].
              split; [exact Hbefore|].
              intros r' Hin Hr'. apply in_app_or in Hin.
              destruct Hin as [Hin|[<-|[]]]; [now apply Hafter|lia].
        -- intros [= <-]. split; [reflexivity|]. exists rs, [].
           split; [reflexivity|]. split; [|intros r' []].
           intros r' Hin Hr'. exfalso. apply (IHseen r' Hin). now rewrite Hr'.
      * intros Hget.
        destruct (IHsurv _ _ Hget) as (Hid & before & after & Hrs & Hbefore & Hafter).
        split; [exact Hid|]. exists before, (after ++ [x]).
        split; [rewrite Hrs, <- app_assoc; reflexivity|].
        split; [exact Hbefore|].
        intros r' Hin Hr'. apply in_app_or in Hin.
        destruct Hin as [Hin|[<-|[]]]; [now apply Hafter|congruence].
    + intros r' Hin. rewrite dict_get_keep_latest.
      destruct (String.eqb_spec (node_id r') (node_id x)) as [E|Hne].
      * destruct (dict_get (node_id r') idx) as [stored|]; [|discriminate].
        destruct (timestamp x >? timestamp stored); discriminate.
      * apply in_app_or in Hin. destruct Hin as [Hin|[<-|[]]];
          [now apply IHseen|congruence].
Qed.

Lemma survivor_of_greatest (rs : list NodeRecord) (r : NodeRecord) :
  survivor_of rs r ->
  In r rs /\ forall r', In r' rs -> node_id r' = node_id r -> timestamp r' <= timestamp r.
Proof.
  intros (before & after & -> & Hbefore & Hafter). split.
  - apply in_or_app. right. now left.
  - intros r' Hin Hid. apply in_app_or in Hin. destruct Hin as [Hin|[<-|Hin]].
    + specialize (Hbefore r' Hin Hid). lia.
    + lia.
    + now apply Hafter.
Qed.

Lemma parse_node_announcement_cases (raw : list byte) :
  parse_node_announcement raw = Ret None \/
  exists r, parse_node_announcement raw = Ret (Some r).
Proof.
  assert (Hdec : node_malformed raw \/ ~ node_malformed raw)
    by (unfold node_malformed; lia).
  destruct Hdec as [Hbad|Hok].
  - left. now apply parse_node_announcement_rejects.
  - right. destruct (parse_node_announcement_accepts raw Hok) as (r & Hr & _).
    now exists r.
Qed.

(** The loop of [main] over the rows folds the decoded records and counts
    the rejected rows. *)
Lemma index_rows_records (rows : list (list byte)) :
  forall parsed_nodes parse_errors,
    index_rows rows parsed_nodes parse_errors =
    Ret (index_records (decoded_records rows) parsed_nodes,
         parse_errors + (len rows - len (decoded_records rows))).
Proof.
  induction rows as [|raw rows IH]; intros parsed_nodes parse_errors.
  - cbn. do 2 f_equal. lia.
  - cbn [index_rows decoded_records].
    destruct (parse_node_announcement_cases raw) as [->|[r ->]]; cbn [bind];
      rewrite IH; rewrite !len_cons; do 2 f_equal; lia.
Qed.

(** C4 (amended).  The loop of [main] folds the records decoded from the
    rows into the index.  In the index built from any sequence of decoded
    records no node id occurs twice; every node id seen has a record; the
    record kept for a node id is one of the records seen for it, no record
    seen for that node id has a greater timestamp, and every earlier
    record of the node has a smaller one: of the records that tie on the
    greatest timestamp the first to arrive is kept.  Two records of one
    node with timestamps 100 and 200 leave the one with 200 in either
    order. *)
Theorem index_records_keeps_latest :
  (forall rows : list (list byte),
      exists parse_errors,
        index_rows rows [] 0 = Ret (index_records (decoded_records rows) [], parse_errors)) /\
  (forall rs : list NodeRecord,
      NoDup (dict_keys (index_records rs [])) /\
      (forall r', In r' rs -> exists r, dict_get (node_id r') (index_records rs []) = Some r) /\
      (forall nid r, dict_get nid (index_records rs []) = Some r ->
         node_id r = nid /\ In r rs /\ survivor_of rs r /\
         forall r', In r' rs -> node_id r' = nid -> timestamp r' <= timestamp r)) /\
  (forall r1 r2 : NodeRecord,
      node_id r1 = node_id r2 -> timestamp r1 = 100 -> timestamp r2 = 200 ->
      dict_get (node_id r1) (index_records [r1; r2] []) = Some r2 /\
      dict_get (node_id r1) (index_records [r2; r1] []) = Some r2).
Proof.
  split; [|split].
  - intros rows. rewrite index_rows_records. eauto.
  - intros rs. destruct (index_records_invariant rs) as (Hnd & Hsurv & Hseen).
    split; [exact Hnd|]. split.
    + intros r' Hin. specialize (Hseen r' Hin).
      destruct (dict_get (node_id r') (index_records rs [])) as [r|]; [now exists r|congruence].
    + intros nid r Hget. destruct (Hsurv nid r Hget) as [Hid Hs].
      destruct (survivor_of_greatest rs r Hs) as [Hin Hmax].
      repeat split; try assumption. intros r' Hr' Hid'. apply Hmax; congruence.
  - intros r1 r2 Hid H1 H2. unfold index_records. cbn [fold_left].
    rewrite !dict_get_keep_latest. rewrite <- Hid, String.eqb_refl.
    cbn [dict_get]. rewrite H1, H2. split; reflexivity.
Qed.

Lemma index_records_keeps_latest_witness :
  dict_get example_node_id
    (index_records [tie_record "a"; tie_record "b"] []) = Some (tie_record "a")
  /\ In (tie_record "a") [tie_record "a"; tie_record "b"].
Proof.
  assert (H : dict_get example_node_id
                (index_records [tie_record "a"; tie_record "b"] []) = Some (tie_record "a"))
    by reflexivity.
  split; [exact H|].
  exact (proj1 (proj2 (proj2 (proj2 (proj1 (proj2 index_records_keeps_latest)
                                       [tie_record "a"; tie_record "b"]))
                         example_node_id (tie_record "a") H))).
Defined.

(** C4, as stated, fails on two announcements of one node with one
    timestamp: the first is kept, and its timestamp is not greater than
    that of the second. *)
Lemma survivor_strictly_greatest_fails :
  ~ survivor_strictly_greatest [tie_record "a"; tie_record "b"].
Proof.
  intros H.
  specialize (H example_node_id (tie_record "a") (tie_record "b") eq_refl).
  assert (Hlt : timestamp (tie_record "b") < timestamp (tie_record "a")).
  { apply H; [right; now left|reflexivity|discriminate]. }
  vm_compute in Hlt. discriminate Hlt.
Qed.

(** ** Folding records in another order *)











(** ** Fingerprint groups *)

Lemma unhex_hex_byte (b : byte) (s : string) :
  unhex_byte (hex_byte (byte_val b) +++ s) = Some b.
Proof. destruct b; reflexivity. Qed.

Lemma hex_cons (b : byte) (bs : list byte) :
  exists c1 c2, hex (b :: bs) = String c1 (String c2 (hex bs)).
Proof. cbn [hex]. unfold hex_byte. cbn [append]. eauto. Qed.

Lemma hex_inj (f1 : list byte) : forall f2, hex f1 = hex f2 -> f1 = f2.
Proof.
  induction f1 as [|b1 f1 IH]; intros [|b2 f2] H.
  - reflexivity.
  - destruct (hex_cons b2 f2) as (c1 & c2 & E). rewrite E in H. discriminate H.
  - destruct (hex_cons b1 f1) as (c1 & c2 & E). rewrite E in H. discriminate H.
  - assert (Hb : b1 = b2).
    { pose proof (f_equal unhex_byte H) as Hu. cbn [hex] in Hu.
      rewrite !unhex_hex_byte in Hu. now injection Hu. }
    subst b2. f_equal. apply IH.
    cbn [hex] in H. unfold hex_byte in H. cbn [append] in H. now injection H.
Qed.

Lemma hex_or_empty_inj (f1 f2 : list byte) : hex_or_empty f1 = hex_or_empty f2 -> f1 = f2.
Proof.
  intros H. apply hex_inj.
  assert (E : forall f, hex_or_empty f = hex f) by (intros [|? ?]; reflexivity).
  now rewrite <- !E.
Qed.

Lemma fprint_groups_snoc (parsed : dict NodeRecord) (item : string * NodeRecord) :
  fprint_groups (parsed ++ [item]) =
  setdefault_append (features_hex (snd item)) (fst item) (fprint_groups parsed).
Proof. unfold fprint_groups. now rewrite fold_left_app. Qed.

Lemma dict_get_setdefault_append (key nid k : string) (groups : dict (list string)) :
  dict_get k (setdefault_append key nid groups) =
  if String.eqb k key
  then Some (match dict_get key groups with
             | Some members => members ++ [nid]
             | None => [nid]
             end)
  else dict_get k groups.
Proof.
  unfold setdefault_append.
  destruct (dict_get key groups); apply dict_get_set.
Qed.

(** The group stored under a key is the list of the node ids whose record
    has that key, in the order of the index; a key nobody has is absent. *)
Lemma fprint_groups_get (parsed : dict NodeRecord) (key : string) :
  dict_get key (fprint_groups parsed) =
  match group_members key parsed with
  | [] => None
  | members => Some members
  end.
Proof.
  induction parsed as [|[nid n] parsed IH] using rev_ind; [reflexivity|].
  rewrite fprint_groups_snoc, dict_get_setdefault_append.
  unfold group_members in *. rewrite filter_app, map_app. cbn [filter snd fst].
  rewrite (String.eqb_sym key).
  destruct (String.eqb_spec (features_hex n) key) as [E|Hne].
  - rewrite E, IH. cbn [map].
    destruct (map fst (filter (fun item => String.eqb (features_hex (snd item)) key) parsed));
      reflexivity.
  - cbn [map]. rewrite app_nil_r. exact IH.
Qed.

Lemma In_group_members (parsed : dict NodeRecord) (key nid : string) :
  In nid (group_members key parsed) <->
  exists n, In (nid, n) parsed /\ features_hex n = key.
Proof.
  unfold group_members. rewrite in_map_iff. split.
  - intros ([nid' n] & Hfst & Hin). cbn in Hfst. subst nid'.
    apply filter_In in Hin. destruct Hin as [Hin Hkey]. cbn in Hkey.
    exists n. split; [exact Hin|]. now apply String.eqb_eq.
  - intros (n & Hin & Hkey). exists (nid, n). split; [reflexivity|].
    apply filter_In. split; [exact Hin|]. cbn. now apply String.eqb_eq.
Qed.

Lemma same_group_iff (parsed : dict NodeRecord) (nid1 nid2 : string) (n1 n2 : NodeRecord) :
  NoDup (dict_keys parsed) ->
  In (nid1, n1) parsed -> In (nid2, n2) parsed ->
  same_group (fprint_groups parsed) nid1 nid2 <-> features_hex n1 = features_hex n2.
Proof.
  intros Hnd H1 H2. unfold same_group. split.
  - intros (key & members & Hget & Hm1 & Hm2).
    rewrite fprint_groups_get in Hget.
    assert (Hmem : members = group_members key parsed)
      by (destruct (group_members key parsed); [discriminate|congruence]).
    subst members.
    apply In_group_members in Hm1. destruct Hm1 as (n1' & Hin1 & Hk1).
    apply In_group_members in Hm2. destruct Hm2 as (n2' & Hin2 & Hk2).
    pose proof (In_dict_get _ _ _ Hnd H1) as G1.
    pose proof (In_dict_get _ _ _ Hnd Hin1) as G1'.
    pose proof (In_dict_get _ _ _ Hnd H2) as G2.
    pose proof (In_dict_get _ _ _ Hnd Hin2) as G2'.
    congruence.
  - intros Heq. exists (features_hex n1), (group_members (features_hex n1) parsed).
    assert (Hm1 : In nid1 (group_members (features_hex n1) parsed))
      by (apply In_group_members; eauto).
    assert (Hm2 : In nid2 (group_members (features_hex n1) parsed))
      by (apply In_group_members; eauto).
    split; [|split; assumption].
    rewrite fprint_groups_get.
    destruct (group_members (features_hex n1) parsed); [destruct Hm1|reflexivity].
Qed.

(** C7.  In the groups built from an index, the members of a group are
    exactly the node ids whose record has the group's key; two records of
    the index are in one group exactly when their feature bytes are
    equal byte for byte, wherever they stand in the index; feature bytes
    that differ by trailing zero bytes put them in different groups. *)
Theorem fprint_groups_partition :
  forall parsed : dict NodeRecord,
    NoDup (dict_keys parsed) ->
    (forall key members, dict_get key (fprint_groups parsed) = Some members ->
       forall nid, In nid members <-> exists n, In (nid, n) parsed /\ features_hex n = key) /\
    (forall nid1 n1 nid2 n2 f1 f2,
        In (nid1, n1) parsed -> In (nid2, n2) parsed ->
        features_hex n1 = hex_or_empty f1 -> features_hex n2 = hex_or_empty f2 ->
        (same_group (fprint_groups parsed) nid1 nid2 <-> f1 = f2) /\
        (forall k, f2 = f1 ++ repeat x00 (S k) ->
                   ~ same_group (fprint_groups parsed) nid1 nid2)).
Proof.
  intros parsed Hnd. split.
  - intros key members Hget nid. rewrite fprint_groups_get in Hget.
    assert (Hmem : members = group_members key parsed)
      by (destruct (group_members key parsed); [discriminate|congruence]).
    subst members. apply In_group_members.
  - intros nid1 n1 nid2 n2 f1 f2 H1 H2 Hf1 Hf2.
    assert (Hiff : same_group (fprint_groups parsed) nid1 nid2 <-> f1 = f2).
    { rewrite (same_group_iff parsed nid1 nid2 n1 n2 Hnd H1 H2), Hf1, Hf2.
      split; [apply hex_or_empty_inj|congruence]. }
    split; [exact Hiff|].
    intros k Hpad Hsame. apply Hiff in Hsame.
    apply (f_equal (@List.length byte)) in Hpad.
    rewrite length_app, repeat_length in Hpad. subst f2. lia.
Qed.

Lemma fprint_groups_partition_witness :
  (same_group (fprint_groups three_nodes) "aa" "cc" <-> [x00; x02] = [x00; x02]) /\
  ~ same_group (fprint_groups three_nodes) "aa" "bb".
Proof.
  assert (Hnd : NoDup (dict_keys three_nodes)).
  { repeat constructor; cbn; intuition discriminate. }
  pose proof (proj2 (fprint_groups_partition three_nodes Hnd)) as H.
  split.
  - apply (proj1 (H "aa" (node_with_features "aa" [x00; x02])
                    "cc" (node_with_features "cc" [x00; x02])
                    [x00; x02] [x00; x02]
                    ltac:(cbn; auto) ltac:(cbn; auto) eq_refl eq_refl)).
  - apply (proj2 (H "aa" (node_with_features "aa" [x00; x02])
                    "bb" (node_with_features "bb" [x00; x02; x00])
                    [x00; x02] [x00; x02; x00]
                    ltac:(cbn; auto) ltac:(cbn; auto) eq_refl eq_refl) 0%nat).
    reflexivity.
Defined.

(** * Further properties of the decoder *)

(** ** Feature bits and the bytes they come from *)

Lemma int_from_bytes_big_snoc (bs : list byte) (b : byte) :
  int_from_bytes_big (bs ++ [b]) = int_from_bytes_big bs * 256 + byte_val b.
Proof. unfold int_from_bytes_big. now rewrite fold_left_app. Qed.

Lemma testbit_shift_byte (x v b : Z) :
  0 <= v < 256 -> 0 <= b ->
  Z.testbit (x * 256 + v) b = if b <? 8 then Z.testbit v b else Z.testbit x (b - 8).
Proof.
  intros Hv Hb. destruct (Z.ltb_spec b 8) as [Hlt|Hge].
  - rewrite <- (Z.mod_pow2_bits_low (x * 256 + v) 8 b) by lia.
    change (2 ^ 8) with 256. rewrite Z.add_comm, Z.mod_add by lia.
    now rewrite Z.mod_small by lia.
  - replace b with ((b - 8) + 8) at 1 by lia.
    rewrite <- Z.div_pow2_bits by lia. change (2 ^ 8) with 256.
    rewrite Z.add_comm, Z.div_add by lia. now rewrite Z.div_small by lia.
Qed.

(** Bit [b] of the integer is bit [b mod 8] of the byte that stands
    [b / 8] places before the end. *)
Lemma testbit_int_from_bytes_big (bs : list byte) :
  forall b, 0 <= b ->
    Z.testbit (int_from_bytes_big bs) b =
    match nth_error (rev bs) (Z.to_nat (b / 8)) with
    | Some byte => Z.testbit (byte_val byte) (b mod 8)
    | None => false
    end.
Proof.
  induction bs as [|x bs IH] using rev_ind; intros b Hb.
  - cbn [rev]. rewrite nth_error_nil. apply Z.bits_0.
  - rewrite int_from_bytes_big_snoc, rev_app_distr. cbn [rev app].
    rewrite testbit_shift_byte by (try apply byte_val_range; lia).
    destruct (Z.ltb_spec b 8) as [Hlt|Hge].
    + rewrite Z.div_small, Z.mod_small by lia. reflexivity.
    + replace (Z.to_nat (b / 8)) with (S (Z.to_nat ((b - 8) / 8))).
      2:{ replace b with ((b - 8) + 1 * 8) at 2 by lia.
          rewrite Z.div_add by lia.
          assert (0 <= (b - 8) / 8) by (apply Z.div_pos; lia). lia. }
      cbn [nth_error]. rewrite IH by lia.
      replace (b mod 8) with ((b - 8) mod 8); [reflexivity|].
      replace b with ((b - 8) + 1 * 8) at 2 by lia. now rewrite Z.mod_add by lia.
Qed.

Lemma decode_features_loop_fuel (fuel : nat) :
  forall val bit features m,
    decode_features_loop fuel val bit features = Ret m ->
    forall fuel', (fuel <= fuel')%nat ->
      decode_features_loop fuel' val bit features = Ret m.
Proof.
  induction fuel as [|fuel IH]; intros val bit features m Hrun fuel' Hle.
  - cbn [decode_features_loop] in Hrun.
    destruct fuel'; cbn [decode_features_loop]; destruct (val >? 0);
      try discriminate; exact Hrun.
  - destruct fuel' as [|fuel']; [lia|].
    cbn [decode_features_loop] in *. destruct (val >? 0); [|exact Hrun].
    eapply IH; [exact Hrun|lia].
Qed.

(** The keys of the mapping are the names of the set bits. *)
Lemma decode_features_keys (feat_bytes : list byte) (m : dict string) :
  decode_features feat_bytes = Ret m ->
  forall name, In name (dict_keys m) <->
    exists b, 0 <= b /\ Z.testbit (int_from_bytes_big feat_bytes) b = true /\
              feature_name b = name.
Proof.
  intros Hm name. unfold decode_features in Hm.
  assert (Hint : match feat_bytes with
                 | [] => 0
                 | _ :: _ => int_from_bytes_big feat_bytes
                 end = int_from_bytes_big feat_bytes)
    by (destruct feat_bytes; reflexivity).
  rewrite Hint in Hm. clear Hint.
  pose proof (int_from_bytes_big_range feat_bytes) as Hrange.
  rewrite <- (Z.shiftr_0_r (int_from_bytes_big feat_bytes)) in Hm at 1.
  pose proof (decode_features_loop_spec _ _ (proj1 Hrange) 0 [] m ltac:(lia) Hm name) as Hspec.
  split.
  - intros Hin. destruct (dict_get name m) as [kind|] eqn:Hget.
    + destruct (proj1 (Hspec kind) eq_refl) as [(b & Hb & Hset & Hname & _)|[H _]];
        [eauto|discriminate H].
    + apply dict_get_None in Hget. contradiction.
  - intros (b & Hb & Hset & Hname).
    destruct (highest_bit_with_name (int_from_bytes_big feat_bytes) name
                (Z.to_nat (8 * len feat_bytes)) b Hb Hset Hname)
      as (b1 & Hb1 & Hset1 & Hname1 & Hmax).
    { intros b' Hb'. apply (bits_above _ (8 * len feat_bytes)); [exact Hrange|].
      pose proof (len_nonneg feat_bytes). lia. }
    assert (Hsome : dict_get name m = Some (feature_kind b1)).
    { apply Hspec. left. exists b1. repeat split; try assumption. lia. }
    destruct (in_dec string_dec name (dict_keys m)) as [Hin|Hnin]; [exact Hin|].
    apply dict_get_None in Hnin. congruence.
Qed.

(** X1.  The keys of [decode_features feat_bytes] are exactly the names
    [feature_name (8 * i + j)] for a bit [j] set in the byte that stands
    [i] places before the end of [feat_bytes]: bit 0 is the lowest bit of
    the last byte. *)
Theorem decode_features_keys_by_byte :
  forall feat_bytes : list byte,
    exists m, decode_features feat_bytes = Ret m /\
      forall name, In name (dict_keys m) <->
        exists (i : nat) (byte : byte) (j : Z),
          nth_error (rev feat_bytes) i = Some byte /\ 0 <= j < 8 /\
          Z.testbit (byte_val byte) j = true /\
          feature_name (8 * Z.of_nat i + j) = name.
Proof.
  intros feat_bytes. destruct (decode_features_total feat_bytes) as [m Hm].
  exists m. split; [exact Hm|]. intros name.
  rewrite (decode_features_keys feat_bytes m Hm name). split.
  - intros (b & Hb & Hset & Hname).
    rewrite testbit_int_from_bytes_big in Hset by exact Hb.
    destruct (nth_error (rev feat_bytes) (Z.to_nat (b / 8))) as [byte|] eqn:Hnth;
      [|discriminate].
    exists (Z.to_nat (b / 8)), byte, (b mod 8).
    assert (0 <= b / 8) by (apply Z.div_pos; lia).
    repeat split; try assumption; try (apply Z.mod_pos_bound; lia).
    rewrite Z2Nat.id by assumption. rewrite <- Z.div_mod by lia. exact Hname.
  - intros (i & byte & j & Hnth & Hj & Hset & Hname).
    exists (8 * Z.of_nat i + j). split; [lia|]. split; [|exact Hname].
    rewrite testbit_int_from_bytes_big by lia.
    replace ((8 * Z.of_nat i + j) / 8) with (Z.of_nat i).
    2:{ rewrite Z.mul_comm, Z.div_add_l by lia. rewrite Z.div_small by lia. lia. }
    rewrite Nat2Z.id, Hnth.
    replace ((8 * Z.of_nat i + j) mod 8) with j; [exact Hset|].
    rewrite Z.add_comm, Z.mul_comm, Z.mod_add by lia. now rewrite Z.mod_small by lia.
Qed.

Lemma int_from_bytes_big_leading_zeros (k : nat) (bs : list byte) :
  int_from_bytes_big (repeat x00 k ++ bs) = int_from_bytes_big bs.
Proof.
  induction k as [|k IH]; [reflexivity|].
  cbn [repeat app]. unfold int_from_bytes_big in *. cbn [fold_left].
  change (0 * 256 + byte_val x00) with 0. exact IH.
Qed.

(** X2.  Zero bytes in front of a feature bitmap do not change what
    [decode_features] returns. *)
Theorem decode_features_leading_zeros :
  forall (k : nat) (feat_bytes : list byte),
    decode_features (repeat x00 k ++ feat_bytes) = decode_features feat_bytes.
Proof.
  intros k feat_bytes.
  destruct (decode_features_total feat_bytes) as [m Hm]. rewrite Hm.
  unfold decode_features in *.
  assert (Hint : forall l, match l with
                           | [] => 0
                           | _ :: _ => int_from_bytes_big l
                           end = int_from_bytes_big l)
    by (intros [|? ?]; reflexivity).
  rewrite Hint in *. rewrite int_from_bytes_big_leading_zeros.
  eapply decode_features_loop_fuel; [exact Hm|].
  rewrite length_app. lia.
Qed.

(** ** Widths of the decoded fields *)

Lemma len_slice_inside {A : Type} (l : list A) (i j : Z) :
  0 <= i -> i <= j -> j <= len l -> len (slice l i j) = j - i.
Proof.
  intros Hi Hij Hj. rewrite slice_inside by assumption.
  unfold len in *. rewrite length_firstn, length_skipn. lia.
Qed.

Lemma hex_length (bs : list byte) : Z.of_nat (String.length (hex bs)) = 2 * len bs.
Proof.
  induction bs as [|b bs IH]; [reflexivity|].
  destruct (hex_cons b bs) as (c1 & c2 & ->). rewrite len_cons.
  cbn [String.length]. lia.
Qed.

Lemma hex_or_empty_length (bs : list byte) :
  Z.of_nat (String.length (hex_or_empty bs)) = 2 * len bs.
Proof. destruct bs; [reflexivity|apply hex_length]. Qed.

Lemma int_from_bytes_big_slice_range {A : Type} (raw : list byte) (i n : Z) :
  0 <= i -> 0 <= n -> i + n <= len raw ->
  0 <= int_from_bytes_big (slice raw i (i + n)) < 2 ^ (8 * n).
Proof.
  intros Hi Hn Hlen.
  pose proof (int_from_bytes_big_range (slice raw i (i + n))) as H.
  rewrite len_slice_inside in H by lia.
  replace (i + n - i) with n in H by lia. exact H.
Qed.

Lemma flen_of_range (raw : list byte) : 2 <= len raw -> 0 <= flen_of raw < 65536.
Proof.
  intros H. unfold flen_of.
  exact (int_from_bytes_big_slice_range (A := unit) raw 0 2 ltac:(lia) ltac:(lia) ltac:(lia)).
Qed.

(** A record returned by [parse_node_announcement], with the test that let
    it through. *)
Lemma parse_node_announcement_Some (raw : list byte) (r : NodeRecord) :
  parse_node_announcement raw = Ret (Some r) ->
  ~ node_malformed raw /\
  exists addresses decoded,
    parse_addresses
      (slice raw (2 + flen_of raw + 4 + 33 + 3 + 32 + 2)
                 (2 + flen_of raw + 4 + 33 + 3 + 32 + 2 + addrlen_of raw)) = Ret addresses /\
    decode_features (slice raw 2 (2 + flen_of raw)) = Ret decoded /\
    r = mkNodeRecord
          (hex (slice raw (2 + flen_of raw + 4) (2 + flen_of raw + 4 + 33)))
          (utf8_decode_replace
             (rstrip_zero (slice raw (2 + flen_of raw + 4 + 33 + 3)
                                     (2 + flen_of raw + 4 + 33 + 3 + 32))))
          ("#" +++ hex (slice raw (2 + flen_of raw + 4 + 33) (2 + flen_of raw + 4 + 33 + 3)))
          (int_from_bytes_big (slice raw (2 + flen_of raw) (2 + flen_of raw + 4)))
          (flen_of raw) (hex_or_empty (slice raw 2 (2 + flen_of raw))) decoded addresses
          (map type addresses).
Proof.
  intros Hr.
  assert (Hok : ~ node_malformed raw).
  { intros Hbad. rewrite (parse_node_announcement_rejects raw Hbad) in Hr. discriminate. }
  split; [exact Hok|].
  rewrite parse_node_announcement_unfold in Hr. unfold node_malformed in Hok.
  destruct (Z.ltb_spec (len raw) (2 + 4 + 33 + 3 + 32 + 2)); [lia|].
  destruct (Z.gtb_spec (2 + flen_of raw + 4 + 33 + 3 + 32 + 2) (len raw)); [lia|].
  cbv zeta in Hr.
  destruct (parse_addresses _) as [addresses| |]; cbn [bind] in Hr; try discriminate.
  destruct (decode_features _) as [decoded| |]; cbn [bind] in Hr; try discriminate.
  injection Hr as <-. exists addresses, decoded. repeat split.
Qed.

(** X3.  In every record returned by [parse_node_announcement] the node
    id has 66 hexadecimal characters and the colour 7 characters, the
    timestamp is below 2^32 and [flen] below 2^16, [features_hex] has two
    characters for each of the [flen] feature bytes, and the address types
    are those of the addresses, in order. *)
Theorem parse_node_announcement_widths :
  forall (raw : list byte) (r : NodeRecord),
    parse_node_announcement raw = Ret (Some r) ->
    String.length (node_id r) = 66%nat /\
    String.length (rgb r) = 7%nat /\
    0 <= timestamp r < 2 ^ 32 /\
    0 <= flen r < 2 ^ 16 /\
    Z.of_nat (String.length (features_hex r)) = 2 * flen r /\
    addr_types r = map type (addresses r).
Proof.
  intros raw r Hr.
  destruct (parse_node_announcement_Some raw r Hr)
    as (Hok & addresses & decoded & _ & _ & ->).
  unfold node_malformed in Hok. cbn [node_id rgb timestamp flen features_hex addr_types].
  assert (Hflen : 0 <= flen_of raw < 65536) by (apply flen_of_range; lia).
  repeat split.
  - apply Nat2Z.inj. rewrite hex_length, len_slice_inside by lia. lia.
  - cbn [append String.length]. apply Nat2Z.inj. rewrite Nat2Z.inj_succ, hex_length.
    rewrite len_slice_inside by lia. lia.
  - apply (int_from_bytes_big_slice_range (A := unit) raw (2 + flen_of raw) 4); lia.
  - apply (int_from_bytes_big_slice_range (A := unit) raw (2 + flen_of raw) 4); lia.
  - lia.
  - change (2 ^ 16) with 65536. lia.
  - rewrite hex_or_empty_length, len_slice_inside by lia. lia.
Qed.

Lemma parse_node_announcement_widths_witness :
  String.length example_node_id = 66%nat /\ 0 <= 1 < 2 ^ 32.
Proof.
  assert (H : parse_node_announcement (example_payload x07)
              = Ret (Some (mkNodeRecord example_node_id "Test" "#000000" 1 2 "0002"
                             [("data_loss_protect", "optional")]
                             [mkAddress "ipv4" "127.0.0.1:9735"] ["ipv4"])))
    by (vm_compute; reflexivity).
  pose proof (parse_node_announcement_widths _ _ H) as (H1 & _ & H3 & _).
  split; [exact H1|exact H3].
Defined.

(** ** Bytes the decoders do not look at *)

Lemma len_app {A : Type} (l1 l2 : list A) : len (l1 ++ l2) = len l1 + len l2.
Proof. unfold len. rewrite length_app. lia. Qed.

Lemma slice_app_l {A : Type} (l e : list A) (i j : Z) :
  0 <= i -> 0 <= j <= len l -> slice (l ++ e) i j = slice l i j.
Proof.
  intros Hi Hj. rewrite !slice_nonneg by lia. rewrite len_app.
  pose proof (len_nonneg e) as He.
  rewrite !(Z.min_l j) by lia.
  destruct (Z.le_gt_cases i (len l)) as [Hle|Hgt].
  - rewrite !(Z.min_l i) by lia.
    rewrite skipn_app, firstn_app.
    replace (Z.to_nat (j - i) - List.length (skipn (Z.to_nat i) l))%nat with 0%nat.
    + cbn [firstn]. now rewrite app_nil_r.
    + rewrite length_skipn. unfold len in *. lia.
  - replace (Z.to_nat (j - Z.min i (len l + len e))) with 0%nat by lia.
    replace (Z.to_nat (j - Z.min i (len l))) with 0%nat by lia.
    reflexivity.
Qed.

(** X4.  Bytes that follow the address list of a node announcement have
    no influence: a payload that holds its [addrlen] address bytes in full
    decodes to the same record with anything appended. *)
Theorem parse_node_announcement_ignores_tail :
  forall raw extra : list byte,
    ~ node_malformed raw ->
    2 + flen_of raw + 4 + 33 + 3 + 32 + 2 + addrlen_of raw <= len raw ->
    parse_node_announcement (raw ++ extra) = parse_node_announcement raw.
Proof.
  intros raw extra Hok Hfull. unfold node_malformed in Hok.
  assert (Hflen : 0 <= flen_of raw < 65536) by (apply flen_of_range; lia).
  assert (Haddrlen : 0 <= addrlen_of raw) by apply int_from_bytes_big_range.
  pose proof (len_nonneg extra) as Hextra.
  assert (Ef : flen_of (raw ++ extra) = flen_of raw).
  { unfold flen_of. now rewrite slice_app_l by lia. }
  assert (Ea : addrlen_of (raw ++ extra) = addrlen_of raw).
  { unfold addrlen_of. rewrite Ef. now rewrite slice_app_l by lia. }
  rewrite !parse_node_announcement_unfold. rewrite Ef, Ea, len_app.
  destruct (Z.ltb_spec (len raw + len extra) (2 + 4 + 33 + 3 + 32 + 2)); [lia|].
  destruct (Z.ltb_spec (len raw) (2 + 4 + 33 + 3 + 32 + 2)); [lia|].
  destruct (Z.gtb_spec (2 + flen_of raw + 4 + 33 + 3 + 32 + 2) (len raw + len extra)); [lia|].
  destruct (Z.gtb_spec (2 + flen_of raw + 4 + 33 + 3 + 32 + 2) (len raw)); [lia|].
  cbv zeta. rewrite !slice_app_l by lia. reflexivity.
Qed.

Lemma parse_node_announcement_ignores_tail_witness :
  parse_node_announcement (example_payload x07 ++ [xff; x01; x02])
  = parse_node_announcement (example_payload x07).
Proof.
  apply parse_node_announcement_ignores_tail.
  - unfold node_malformed. vm_compute. intros [H|H]; discriminate H.
  - vm_compute. discriminate.
Defined.

(** ** Channel announcements *)

Lemma parse_channel_announcement_unfold (raw : list byte) :
  parse_channel_announcement raw =
  if len raw <? 2 + 32 + 8 + 33 * 4 then Ret None
  else
    decoded <- decode_features (slice raw 2 (2 + flen_of raw)) ;;
    Ret (Some (mkChannelRecord
                 (int_from_bytes_big
                    (slice raw (2 + flen_of raw + 32) (2 + flen_of raw + 32 + 8)))
                 (hex (slice raw (2 + flen_of raw + 32 + 8) (2 + flen_of raw + 32 + 8 + 33)))
                 (hex (slice raw (2 + flen_of raw + 32 + 8 + 33)
                                 (2 + flen_of raw + 32 + 8 + 33 + 33)))
                 (flen_of raw) (hex_or_empty (slice raw 2 (2 + flen_of raw))) decoded)).
Proof. reflexivity. Qed.

(** X5.  [parse_channel_announcement] never raises: it returns a value
    for every payload, and the value is [None] exactly for the payloads
    shorter than 2+32+8+33*4 bytes; the value of [flen] plays no part in
    it. *)
Theorem parse_channel_announcement_None_iff_short :
  forall raw : list byte,
    exists result,
      parse_channel_announcement raw = Ret result /\
      (result = None <-> len raw < 2 + 32 + 8 + 33 * 4).
Proof.
  intros raw. rewrite parse_channel_announcement_unfold.
  destruct (Z.ltb_spec (len raw) (2 + 32 + 8 + 33 * 4)) as [Hlt|Hge].
  - exists None. split; [reflexivity|]. split; [intros _; exact Hlt|reflexivity].
  - destruct (decode_features_total (slice raw 2 (2 + flen_of raw))) as [decoded ->].
    cbn [bind]. eexists. split; [reflexivity|]. split; [discriminate|lia].
Qed.

(** X6.  When the fields up to the second node id lie inside the buffer,
    the record returned by [parse_channel_announcement] has node ids of 66
    hexadecimal characters, a channel id below 2^64, [flen] below 2^16 and
    two characters of [features_hex] for each feature byte. *)
Theorem parse_channel_announcement_widths :
  forall (raw : list byte) (r : ChannelRecord),
    parse_channel_announcement raw = Ret (Some r) ->
    2 + chan_flen r + 32 + 8 + 33 + 33 <= len raw ->
    String.length (node1 r) = 66%nat /\
    String.length (node2 r) = 66%nat /\
    0 <= scid r < 2 ^ 64 /\
    0 <= chan_flen r < 2 ^ 16 /\
    Z.of_nat (String.length (chan_features_hex r)) = 2 * chan_flen r.
Proof.
  intros raw r Hr. rewrite parse_channel_announcement_unfold in Hr.
  destruct (Z.ltb_spec (len raw) (2 + 32 + 8 + 33 * 4)) as [Hlt|Hge]; [discriminate|].
  destruct (decode_features _) as [decoded| |]; cbn [bind] in Hr; try discriminate.
  match type of Hr with
  | Ret (Some ?x) = _ => assert (E : x = r) by congruence; clear Hr; subst r
  end.
  cbn [node1 node2 scid chan_flen chan_features_hex]. intros Hfit.
  assert (Hflen : 0 <= flen_of raw < 65536) by (apply flen_of_range; lia).
  repeat split.
  - apply Nat2Z.inj. rewrite hex_length, len_slice_inside by lia. lia.
  - apply Nat2Z.inj. rewrite hex_length, len_slice_inside by lia. lia.
  - apply (int_from_bytes_big_slice_range (A := unit) raw (2 + flen_of raw + 32) 8); lia.
  - apply (int_from_bytes_big_slice_range (A := unit) raw (2 + flen_of raw + 32) 8); lia.
  - lia.
  - change (2 ^ 16) with 65536. lia.
  - rewrite hex_or_empty_length, len_slice_inside by lia. lia.
Qed.

Lemma parse_channel_announcement_widths_witness :
  exists r, parse_channel_announcement (repeat x00 174) = Ret (Some r) /\
    String.length (node1 r) = 66%nat /\ 0 <= scid r < 2 ^ 64.
Proof.
  assert (H : parse_channel_announcement (repeat x00 174)
              = Ret (Some (mkChannelRecord 0 example_node_id example_node_id 0 "" [])))
    by (vm_compute; reflexivity).
  eexists. split; [exact H|].
  destruct (parse_channel_announcement_widths _ _ H) as (H1 & _ & H3 & _).
  - vm_compute. discriminate.
  - split; [exact H1|exact H3].
Defined.

(** X7.  [parse_channel_announcement] reads nothing after the second node
    id: two payloads of at least 174 bytes that agree up to there give the
    same result, whatever stands in the place of the two further keys. *)
Theorem parse_channel_announcement_ignores_tail :
  forall head tail1 tail2 : list byte,
    2 + flen_of head + 32 + 8 + 33 + 33 <= len head ->
    2 + 32 + 8 + 33 * 4 <= len (head ++ tail1) ->
    2 + 32 + 8 + 33 * 4 <= len (head ++ tail2) ->
    parse_channel_announcement (head ++ tail1) = parse_channel_announcement (head ++ tail2).
Proof.
  intros head tail1 tail2 Hfit H1 H2.
  assert (Hflen : 0 <= flen_of head) by apply int_from_bytes_big_range.
  assert (Ef : forall tail, flen_of (head ++ tail) = flen_of head).
  { intros tail. unfold flen_of. now rewrite slice_app_l by lia. }
  rewrite !parse_channel_announcement_unfold, !Ef.
  destruct (Z.ltb_spec (len (head ++ tail1)) (2 + 32 + 8 + 33 * 4)); [lia|].
  destruct (Z.ltb_spec (len (head ++ tail2)) (2 + 32 + 8 + 33 * 4)); [lia|].
  rewrite !slice_app_l by lia. reflexivity.
Qed.

Lemma parse_channel_announcement_ignores_tail_witness :
  parse_channel_announcement (repeat x00 108 ++ repeat x02 66)
  = parse_channel_announcement (repeat x00 108 ++ repeat x03 66).
Proof.
  apply parse_channel_announcement_ignores_tail; vm_compute; discriminate.
Defined.

(** ** Address lists piece by piece *)

Lemma parse_addresses_of_readable_prefix (data : list byte) (l : list Address) :
  readable_prefix data l -> parse_addresses data = Ret l.
Proof.
  intros Hl. unfold parse_addresses.
  apply (parse_addresses_loop_refines data data l Hl (List.length data) 0 []).
  - pose proof (len_nonneg data). lia.
  - reflexivity.
  - unfold len. lia.
Qed.

Lemma readable_prefix_of_parse_addresses (data : list byte) (l : list Address) :
  parse_addresses data = Ret l -> readable_prefix data l.
Proof.
  intros Hl. destruct (readable_prefix_total data) as [l' Hl'].
  pose proof (parse_addresses_of_readable_prefix data l' Hl') as E.
  assert (l = l') by congruence. now subst l'.
Qed.

Lemma take_app_exact {A : Type} (l e : list A) : take (len l) (l ++ e) = l.
Proof.
  unfold take, len. rewrite Nat2Z.id, firstn_app, Nat.sub_diag, firstn_all.
  cbn [firstn]. apply app_nil_r.
Qed.

Lemma drop_app_exact {A : Type} (l e : list A) : drop (len l) (l ++ e) = e.
Proof.
  unfold drop, len. rewrite Nat2Z.id, skipn_app, Nat.sub_diag, skipn_all.
  reflexivity.
Qed.

Lemma body_length_app (tag : Z) (body rest : list byte) (n : Z) :
  body_length tag body = Some n -> body_length tag (body ++ rest) = Some n.
Proof.
  unfold body_length.
  repeat match goal with
         | |- context [tag =? ?k] => destruct (tag =? k)
         end; try (intros H; exact H).
  destruct body as [|h body]; [discriminate|]. intros H. exact H.
Qed.

Lemma read_descriptor_head (tag : byte) (body rest : list byte) :
  body_length (byte_val tag) body = Some (len body) ->
  read_descriptor (tag :: body ++ rest) = Some (descriptor (byte_val tag) body, rest).
Proof.
  intros Hlen. unfold read_descriptor.
  rewrite (body_length_app _ _ rest _ Hlen).
  destruct (Z.ltb_spec (len (body ++ rest)) (len body)) as [Hlt|_].
  - rewrite len_app in Hlt. pose proof (len_nonneg rest). lia.
  - now rewrite take_app_exact, drop_app_exact.
Qed.

(** X8.  A complete descriptor at the head of an address list is decoded
    on its own: [parse_addresses] returns its address followed by the
    addresses of the bytes after it.  The body is complete when it has the
    6, 18, 12 or 37 bytes of the tags 1 to 4, or for tag 5 the length
    byte, as many host name bytes as it says and two port bytes. *)
Theorem parse_addresses_head_descriptor :
  forall (tag : byte) (body rest : list byte) (l : list Address),
    body_length (byte_val tag) body = Some (len body) ->
    parse_addresses rest = Ret l ->
    parse_addresses (tag :: body ++ rest) = Ret (descriptor (byte_val tag) body :: l).
Proof.
  intros tag body rest l Hlen Hrest.
  apply parse_addresses_of_readable_prefix.
  apply readable_next with (rest := rest).
  - now apply read_descriptor_head.
  - now apply readable_prefix_of_parse_addresses.
Qed.

Lemma parse_addresses_head_descriptor_witness :
  parse_addresses ([x05; x02; x6c; x6e; x00; x50] ++ [x03; x00])
  = Ret [mkAddress "dns" "ln:80"].
Proof.
  apply (parse_addresses_head_descriptor x05 [x02; x6c; x6e; x00; x50] [x03; x00] []);
    reflexivity.
Defined.

Lemma read_descriptor_Some_inv (s rest : list byte) (a : Address) :
  read_descriptor s = Some (a, rest) ->
  In (type a) ["ipv4"; "ipv6"; "torv2"; "torv3"; "dns"] /\ len rest + 4 <= len s.
Proof.
  unfold read_descriptor. destruct s as [|tag after]; [discriminate|].
  destruct (body_length (byte_val tag) after) as [n|] eqn:Hn; [|discriminate].
  destruct (Z.ltb_spec (len after) n) as [|Hle]; [discriminate|].
  intros H. assert (Ea : a = descriptor (byte_val tag) (take n after)) by congruence.
  assert (Er : rest = drop n after) by congruence. clear H. subst a rest.
  rewrite len_cons.
  unfold body_length in Hn. unfold descriptor.
  destruct (byte_val tag =? 1).
  { assert (n = 4 + 2) by congruence. subst n. rewrite len_drop by lia.
    split; [cbn; auto|lia]. }
  destruct (byte_val tag =? 2).
  { assert (n = 16 + 2) by congruence. subst n. rewrite len_drop by lia.
    split; [cbn; auto|lia]. }
  destruct (byte_val tag =? 3).
  { assert (n = 10 + 2) by congruence. subst n. rewrite len_drop by lia.
    split; [cbn; auto|lia]. }
  destruct (byte_val tag =? 4).
  { assert (n = 35 + 2) by congruence. subst n. rewrite len_drop by lia.
    split; [cbn; auto 6|lia]. }
  destruct (byte_val tag =? 5); [|discriminate].
  destruct after as [|h after']; [discriminate|].
  assert (n = 1 + byte_val h + 2) by congruence. subst n.
  pose proof (byte_val_range h). rewrite len_drop by lia.
  split; [cbn; auto 6|lia].
Qed.

Lemma readable_prefix_types_and_size (s : list byte) (l : list Address) :
  readable_prefix s l ->
  Forall (fun a => In (type a) ["ipv4"; "ipv6"; "torv2"; "torv3"; "dns"]) l /\
  4 * len l <= len s.
Proof.
  induction 1 as [s Hstop|s rest a l Hread Hrest [IHt IHs]].
  - split; [constructor|]. pose proof (len_nonneg s). change (len (@nil Address)) with 0. lia.
  - destruct (read_descriptor_Some_inv s rest a Hread) as [Ht Hs].
    split; [now constructor|]. rewrite len_cons. lia.
Qed.

(** X9.  Every address returned by [parse_addresses] has one of the five
    types [ipv4], [ipv6], [torv2], [torv3], [dns], and each address
    accounts for at least four bytes of the input. *)
Theorem parse_addresses_types_and_size :
  forall (data : list byte) (l : list Address),
    parse_addresses data = Ret l ->
    Forall (fun a => In (type a) ["ipv4"; "ipv6"; "torv2"; "torv3"; "dns"]) l /\
    4 * len l <= len data.
Proof.
  intros data l Hl. apply readable_prefix_types_and_size.
  now apply readable_prefix_of_parse_addresses.
Qed.

Lemma parse_addresses_types_and_size_witness :
  4 * len [mkAddress "dns" ":0"; mkAddress "dns" ":0"]
  <= len [x05; x00; x00; x00; x05; x00; x00; x00; x05].
Proof.
  apply (proj2 (parse_addresses_types_and_size
                  [x05; x00; x00; x00; x05; x00; x00; x00; x05]
                  [mkAddress "dns" ":0"; mkAddress "dns" ":0"] eq_refl)).
Defined.

(** ** The index under repeated and rejected rows *)

Lemma keep_latest_superseded_same (idx : dict NodeRecord) (r : NodeRecord) :
  superseded idx r -> keep_latest idx r = idx.
Proof.
  intros (stored & Hget & Hts). unfold keep_latest. rewrite Hget.
  destruct (Z.gtb_spec (timestamp r) (timestamp stored)); [lia|reflexivity].
Qed.

Lemma keep_latest_supersedes (idx : dict NodeRecord) (r : NodeRecord) :
  superseded (keep_latest idx r) r.
Proof.
  unfold superseded. rewrite dict_get_keep_latest, String.eqb_refl.
  destruct (dict_get (node_id r) idx) as [stored|].
  - destruct (Z.gtb_spec (timestamp r) (timestamp stored)).
    + exists r. split; [reflexivity|lia].
    + exists stored. split; [reflexivity|lia].
  - exists r. split; [reflexivity|lia].
Qed.

Lemma keep_latest_keeps_superseded (idx : dict NodeRecord) (r r' : NodeRecord) :
  superseded idx r' -> superseded (keep_latest idx r) r'.
Proof.
  intros (stored & Hget & Hts). unfold superseded. rewrite dict_get_keep_latest.
  destruct (String.eqb_spec (node_id r') (node_id r)) as [E|Hne].
  - rewrite Hget. destruct (Z.gtb_spec (timestamp r) (timestamp stored)).
    + exists r. split; [reflexivity|lia].
    + exists stored. split; [reflexivity|lia].
  - exists stored. now split.
Qed.

Lemma index_records_supersedes (rs : list NodeRecord) :
  forall acc r,
    In r rs \/ superseded acc r -> superseded (index_records rs acc) r.
Proof.
  induction rs as [|x rs IH]; intros acc r H.
  - destruct H as [[]|H]. exact H.
  - change (superseded (index_records rs (keep_latest acc x)) r).
    apply IH. destruct H as [[<-|Hin]|Hsup].
    + right. apply keep_latest_supersedes.
    + now left.
    + right. now apply keep_latest_keeps_superseded.
Qed.

Lemma index_records_superseded_same (rs : list NodeRecord) :
  forall idx, (forall r, In r rs -> superseded idx r) -> index_records rs idx = idx.
Proof.
  induction rs as [|x rs IH]; intros idx H; [reflexivity|].
  change (index_records rs (keep_latest idx x) = idx).
  rewrite keep_latest_superseded_same by (apply H; now left).
  apply IH. intros r Hr. apply H. now right.
Qed.

(** X10.  Records that were folded into the index before change nothing
    when they arrive again, in any order and any number of times: the
    index stays the same dictionary, with the same order of keys. *)
Theorem index_records_replay :
  forall (rs again : list NodeRecord) (acc : dict NodeRecord),
    incl again rs ->
    index_records (rs ++ again) acc = index_records rs acc.
Proof.
  intros rs again acc Hincl. unfold index_records at 1. rewrite fold_left_app.
  fold (index_records rs acc). fold (index_records again (index_records rs acc)).
  apply index_records_superseded_same.
  intros r Hr. apply index_records_supersedes. left. now apply Hincl.
Qed.

Lemma index_records_replay_witness :
  index_records ([tie_record "a"; tie_record "b"] ++ [tie_record "b"; tie_record "a"]) []
  = index_records [tie_record "a"; tie_record "b"] [].
Proof.
  apply index_records_replay. intros r [<-|[<-|[]]]; cbn; auto.
Defined.

Lemma keep_latest_keys (idx : dict NodeRecord) (r : NodeRecord) :
  dict_keys (keep_latest idx r) =
  match dict_get (node_id r) idx with
  | Some _ => dict_keys idx
  | None => dict_keys idx ++ [node_id r]
  end.
Proof.
  unfold keep_latest. destruct (dict_get (node_id r) idx) as [stored|] eqn:E.
  - destruct (timestamp r >? timestamp stored); [|reflexivity].
    now rewrite dict_keys_set, E.
  - now rewrite dict_keys_set, E.
Qed.

(** X11.  The keys of the index are the node ids of the records in the
    order in which each was seen first; a later record of a node takes the
    place of the earlier one without moving the node. *)
Theorem index_records_key_order :
  forall rs : list NodeRecord,
    dict_keys (index_records rs []) = first_occurrences (map node_id rs).
Proof.
  unfold first_occurrences.
  induction rs as [|x rs IH] using rev_ind; [reflexivity|].
  rewrite index_records_snoc, keep_latest_keys, map_app, rev_app_distr.
  cbn [map rev app nodup].
  assert (Hin : In (node_id x) (rev (map node_id rs)) <->
                dict_get (node_id x) (index_records rs []) <> None).
  { rewrite <- in_rev. rewrite dict_get_None, IH, <- in_rev, nodup_In, <- in_rev.
    split; [tauto|]. intros H.
    destruct (in_dec string_dec (node_id x) (map node_id rs)); tauto. }
  destruct (in_dec string_dec (node_id x) (rev (map node_id rs))) as [Hyes|Hno].
  - apply Hin in Hyes. destruct (dict_get (node_id x) (index_records rs [])); [exact IH|congruence].
  - destruct (dict_get (node_id x) (index_records rs [])) eqn:E.
    + exfalso. apply Hno. apply Hin. congruence.
    + cbn [rev]. now rewrite IH.
Qed.

Lemma node_malformedb_spec (raw : list byte) :
  node_malformedb raw = true <-> node_malformed raw.
Proof.
  unfold node_malformedb, node_malformed.
  rewrite orb_true_iff, Z.ltb_lt, Z.gtb_lt. lia.
Qed.

Lemma decoded_records_length (rows : list (list byte)) :
  len (decoded_records rows) + len (filter node_malformedb rows) = len rows.
Proof.
  induction rows as [|raw rows IH]; [reflexivity|].
  cbn [decoded_records filter].
  destruct (node_malformedb raw) eqn:E.
  - apply node_malformedb_spec in E.
    rewrite (parse_node_announcement_rejects raw E). rewrite !len_cons. lia.
  - assert (Hok : ~ node_malformed raw).
    { intros H. apply node_malformedb_spec in H. congruence. }
    destruct (parse_node_announcement_accepts raw Hok) as (r & -> & _).
    rewrite !len_cons. lia.
Qed.





(** ** Fingerprint groups as a whole *)

Lemma total_members_set (groups : dict (list string)) (key : string) (members : list string) :
  total_members (dict_set key members groups) =
  total_members groups + len members
  - match dict_get key groups with
    | Some old => len old
    | None => 0
    end.
Proof.
  assert (Hcons : forall k v g, total_members ((k, v) :: g) = len v + total_members g)
    by reflexivity.
  induction groups as [|[k v] groups IH]; cbn [dict_set dict_get].
  - rewrite Hcons. change (total_members []) with 0. lia.
  - destruct (String.eqb_spec key k) as [->|Hne]; rewrite !Hcons; lia.
Qed.

Lemma setdefault_append_total (key nid : string) (groups : dict (list string)) :
  total_members (setdefault_append key nid groups) = total_members groups + 1.
Proof.
  unfold setdefault_append. destruct (dict_get key groups) as [old|] eqn:E;
    rewrite total_members_set, E.
  - rewrite len_app. change (len [nid]) with 1. lia.
  - change (len [nid]) with 1. lia.
Qed.

Lemma setdefault_append_NoDup (key nid : string) (groups : dict (list string)) :
  NoDup (dict_keys groups) -> NoDup (dict_keys (setdefault_append key nid groups)).
Proof.
  intros H. unfold setdefault_append.
  destruct (dict_get key groups); now apply dict_set_NoDup.
Qed.

Lemma fprint_groups_NoDup (parsed : dict NodeRecord) : NoDup (dict_keys (fprint_groups parsed)).
Proof.
  induction parsed as [|item parsed IH] using rev_ind; [constructor|].
  rewrite fprint_groups_snoc. now apply setdefault_append_NoDup.
Qed.

Lemma setdefault_append_length (key nid : string) (groups : dict (list string)) :
  len (setdefault_append key nid groups) <= len groups + 1.
Proof.
  assert (H : len (dict_keys (setdefault_append key nid groups)) <= len (dict_keys groups) + 1).
  { unfold setdefault_append.
    destruct (dict_get key groups) eqn:E; rewrite dict_keys_set, E;
      rewrite ?len_app; change (len [key]) with 1; lia. }
  unfold dict_keys, len in *. now rewrite !length_map in H.
Qed.

Lemma fprint_groups_total (parsed : dict NodeRecord) :
  total_members (fprint_groups parsed) = len parsed.
Proof.
  induction parsed as [|item parsed IH] using rev_ind; [reflexivity|].
  rewrite fprint_groups_snoc, setdefault_append_total, IH, len_app.
  change (len [item]) with 1. lia.
Qed.

(** X13.  The groups built from an index have distinct keys and none is
    empty; their sizes add up to the number of records in the index, and
    there are at most as many groups as records. *)
Theorem fprint_groups_sizes :
  forall parsed : dict NodeRecord,
    NoDup (dict_keys (fprint_groups parsed)) /\
    (forall key members, In (key, members) (fprint_groups parsed) -> members <> []) /\
    total_members (fprint_groups parsed) = len parsed /\
    len (fprint_groups parsed) <= len parsed.
Proof.
  intros parsed. split; [apply fprint_groups_NoDup|]. split; [|split].
  - intros key members Hin Hnil.
    apply (In_dict_get _ _ _ (fprint_groups_NoDup parsed)) in Hin.
    rewrite fprint_groups_get in Hin. subst members.
    destruct (group_members key parsed); discriminate.
  - apply fprint_groups_total.
  - induction parsed as [|item parsed IH] using rev_ind; [cbn; lia|].
    rewrite fprint_groups_snoc, len_app. change (len [item]) with 1.
    pose proof (setdefault_append_length (features_hex (snd item)) (fst item)
                  (fprint_groups parsed)). lia.
Qed.

(** ** [bytes.fromhex] undoes [hex] *)

Lemma bytes_fromhex_hex_byte (b : byte) (s : string) :
  bytes_fromhex (hex_byte (byte_val b) +++ s) =
  match bytes_fromhex s with
  | Some bs => Some (b :: bs)
  | None => None
  end.
Proof. destruct b; reflexivity. Qed.

Lemma bytes_fromhex_undoes_hex (bs : list byte) : bytes_fromhex (hex bs) = Some bs.
Proof.
  induction bs as [|b bs IH]; [reflexivity|].
  cbn [hex]. now rewrite bytes_fromhex_hex_byte, IH.
Qed.

(** X14.  [bytes.fromhex] gives back the bytes that [hex] wrote. *)
Theorem bytes_fromhex_hex :
  forall bs : list byte, bytes_fromhex (hex bs) = Some bs.
Proof. exact bytes_fromhex_undoes_hex. Qed.

(** X15.  For a record returned by [parse_node_announcement], decoding the
    group key [features_hex] again, as [main] does for every group, never
    raises and gives the features of the record. *)
Theorem group_features_of_record :
  forall (raw : list byte) (r : NodeRecord),
    parse_node_announcement raw = Ret (Some r) ->
    group_features (features_hex r) = Some (Ret (features r)).
Proof.
  intros raw r Hr.
  destruct (parse_node_announcement_Some raw r Hr)
    as (_ & addresses & decoded & _ & Hdec & ->).
  cbn [features_hex features].
  destruct (slice raw 2 (2 + flen_of raw)) as [|b bs] eqn:E.
  - change (Some (Ret (@nil (string * string))) = Some (Ret decoded)).
    change (decode_features []) with (Ret (@nil (string * string))) in Hdec.
    now rewrite Hdec.
  - unfold hex_or_empty, group_features.
    destruct (hex_cons b bs) as (c1 & c2 & Ehex). rewrite Ehex, <- Ehex.
    now rewrite bytes_fromhex_undoes_hex, Hdec.
Qed.

Lemma group_features_of_record_witness :
  group_features "0002" = Some (Ret [("data_loss_protect", "optional")]).
Proof.
  assert (H : parse_node_announcement (example_payload x07)
              = Ret (Some (mkNodeRecord example_node_id "Test" "#000000" 1 2 "0002"
                             [("data_loss_protect", "optional")]
                             [mkAddress "ipv4" "127.0.0.1:9735"] ["ipv4"])))
    by (vm_compute; reflexivity).
  exact (group_features_of_record _ _ H).
Defined.

(** ** Counters *)

Section CounterFacts.
Context {K : Type} (eqb : K -> K -> bool).
Hypothesis eqb_spec : forall x y, reflect (x = y) (eqb x y).

Lemma counter_get_set (k k' : K) (v : Z) (c : list (K * Z)) :
  counter_get eqb k' (counter_set eqb k v c) = if eqb k' k then v else counter_get eqb k' c.
Proof.
  induction c as [|[k0 v0] c IH]; cbn [counter_set counter_get].
  - reflexivity.
  - destruct (eqb_spec k k0) as [->|Hk]; cbn [counter_get].
    + destruct (eqb_spec k' k0); reflexivity.
    + destruct (eqb_spec k' k0) as [->|Hk'].
      * destruct (eqb_spec k0 k); [congruence|reflexivity].
      * exact IH.
Qed.

Lemma counter_get_add (k k' : K) (c : list (K * Z)) :
  counter_get eqb k' (counter_add eqb k c) =
  counter_get eqb k' c + if eqb k' k then 1 else 0.
Proof.
  unfold counter_add. rewrite counter_get_set.
  destruct (eqb_spec k' k) as [->|_]; lia.
Qed.

Lemma counter_get_add_all (ks : list K) :
  forall (k' : K) (c : list (K * Z)),
    counter_get eqb k' (counter_add_all eqb ks c) =
    counter_get eqb k' c + len (filter (eqb k') ks).
Proof.
  induction ks as [|k ks IH]; intros k' c.
  - cbn. lia.
  - change (counter_add_all eqb (k :: ks) c)
      with (counter_add_all eqb ks (counter_add eqb k c)).
    rewrite IH, counter_get_add. cbn [filter].
    destruct (eqb k' k); rewrite ?len_cons; lia.
Qed.
End CounterFacts.

Lemma filter_eqb_NoDup (name : string) (ks : list string) :
  NoDup ks ->
  len (filter (String.eqb name) ks) = if existsb (String.eqb name) ks then 1 else 0.
Proof.
  induction 1 as [|k ks Hnotin Hnd IH]; [reflexivity|].
  cbn [filter existsb]. destruct (String.eqb_spec name k) as [->|Hne].
  - rewrite len_cons, IH. cbn [orb].
    destruct (existsb (String.eqb k) ks) eqn:E; [|lia].
    apply existsb_exists in E. destruct E as (k' & Hin & Heq).
    apply String.eqb_eq in Heq. subst k'. contradiction.
  - exact IH.
Qed.

Lemma feature_statistics_snoc (parsed : dict NodeRecord) (item : string * NodeRecord) :
  feature_statistics (parsed ++ [item]) = count_node (feature_statistics parsed) (snd item).
Proof. unfold feature_statistics. now rewrite map_app, fold_left_app. Qed.

(** X16.  When no record of the index lists a feature name twice, as is
    the case for decoded records, the prevalence counted for a feature
    name is the number of records that have it; it never exceeds the
    number of records. *)
Theorem feat_counter_counts_nodes :
  forall (parsed : dict NodeRecord) (name : string),
    (forall item, In item parsed -> NoDup (dict_keys (features (snd item)))) ->
    counter_get String.eqb name (feat_counter (feature_statistics parsed))
    = len (filter (fun item => has_feature name (snd item)) parsed) /\
    counter_get String.eqb name (feat_counter (feature_statistics parsed)) <= len parsed.
Proof.
  intros parsed name Hnd.
  assert (Hcount : counter_get String.eqb name (feat_counter (feature_statistics parsed))
                   = len (filter (fun item => has_feature name (snd item)) parsed)).
  { induction parsed as [|item parsed IH] using rev_ind; [reflexivity|].
    rewrite feature_statistics_snoc. cbn [count_node feat_counter].
    rewrite (counter_get_add_all String.eqb String.eqb_spec).
    rewrite IH by (intros i Hi; apply Hnd; apply in_or_app; now left).
    rewrite filter_app, len_app. cbn [filter]. unfold has_feature at 3.
    rewrite filter_eqb_NoDup by (apply Hnd; apply in_or_app; right; now left).
    destruct (existsb (String.eqb name) (dict_keys (features (snd item)))); reflexivity. }
  split; [exact Hcount|]. rewrite Hcount.
  pose proof (filter_length_le (fun item => has_feature name (snd item)) parsed).
  unfold len. lia.
Qed.

Lemma feat_counter_counts_nodes_witness :
  counter_get String.eqb "data_loss_protect" (feat_counter (feature_statistics featured_nodes))
  = len (filter (fun item => has_feature "data_loss_protect" (snd item)) featured_nodes) /\
  counter_get String.eqb "data_loss_protect" (feat_counter (feature_statistics featured_nodes))
  <= len featured_nodes.
Proof.
  apply (feat_counter_counts_nodes featured_nodes "data_loss_protect").
  intros item [<-|[<-|[<-|[]]]]; cbn; repeat constructor; cbn; intuition discriminate.
Defined.

Example feat_counter_featured_nodes :
  counter_get String.eqb "data_loss_protect" (feat_counter (feature_statistics featured_nodes))
  = 2 /\
  counter_get String.eqb "tlv_onion" (feat_counter (feature_statistics featured_nodes)) = 2 /\
  counter_get String.eqb "zero_conf" (feat_counter (feature_statistics featured_nodes)) = 0.
Proof. repeat split. Qed.

(** X17.  The histogram of [flen] holds for each length the number of
    records of the index with that [flen], and the histogram of address
    types holds for each type the number of addresses of that type over
    all records. *)
Theorem histograms_count :
  forall (parsed : dict NodeRecord) (f : Z) (t : string),
    counter_get Z.eqb f (flen_counter (feature_statistics parsed))
    = len (filter (fun item => Z.eqb f (flen (snd item))) parsed) /\
    counter_get String.eqb t (addr_type_counter (feature_statistics parsed))
    = len (filter (String.eqb t) (flat_map (fun item => addr_types (snd item)) parsed)).
Proof.
  intros parsed f t.
  induction parsed as [|item parsed [IHf IHt]] using rev_ind; [split; reflexivity|].
  rewrite feature_statistics_snoc. cbn [count_node flen_counter addr_type_counter]. split.
  - rewrite (counter_get_add Z.eqb Z.eqb_spec), IHf, filter_app, len_app. cbn [filter].
    destruct (Z.eqb f (flen (snd item))); reflexivity.
  - rewrite (counter_get_add_all String.eqb String.eqb_spec), IHt.
    rewrite flat_map_app, filter_app, len_app. cbn [flat_map]. now rewrite app_nil_r.
Qed.

(** ** The loop over the channel announcements *)




(** ** The order of the groups *)

Section Sorted.
Context {A : Type} (key : A -> Z).

Lemma insert_by_Permutation (x : A) (l : list A) : Permutation (insert_by key x l) (x :: l).
Proof.
  induction l as [|y l IH]; cbn [insert_by]; [reflexivity|].
  destruct (key x <=? key y); [reflexivity|].
  rewrite IH. apply perm_swap.
Qed.

Lemma sorted_Permutation (l : list A) : Permutation (sorted key l) l.
Proof.
  induction l as [|x l IH]; [reflexivity|].
  cbn [sorted fold_right]. fold (sorted key l).
  rewrite insert_by_Permutation. now constructor.
Qed.

Lemma insert_by_StronglySorted (x : A) (l : list A) :
  StronglySorted (fun a b => key a <= key b) l ->
  StronglySorted (fun a b => key a <= key b) (insert_by key x l).
Proof.
  induction 1 as [|y l Hsorted IH Hall]; cbn [insert_by].
  - repeat constructor.
  - destruct (Z.leb_spec (key x) (key y)) as [Hle|Hgt].
    + constructor; [now constructor|].
      constructor; [exact Hle|].
      eapply Forall_impl; [|exact Hall]. cbn. intros a Ha. lia.
    + constructor; [exact IH|].
      eapply Permutation_Forall; [symmetry; apply insert_by_Permutation|].
      constructor; [lia|exact Hall].
Qed.

Lemma sorted_StronglySorted (l : list A) :
  StronglySorted (fun a b => key a <= key b) (sorted key l).
Proof.
  induction l as [|x l IH]; [constructor|].
  cbn [sorted fold_right]. now apply insert_by_StronglySorted.
Qed.

Lemma insert_by_stable (k : Z) (x : A) (l : list A) :
  filter (fun a => key a =? k) (insert_by key x l) = filter (fun a => key a =? k) (x :: l).
Proof.
  induction l as [|y l IH]; cbn [insert_by]; [reflexivity|].
  destruct (Z.leb_spec (key x) (key y)) as [Hle|Hgt]; [reflexivity|].
  cbn [filter] in *. rewrite IH.
  destruct (Z.eqb_spec (key x) k), (Z.eqb_spec (key y) k); try reflexivity. lia.
Qed.

Lemma sorted_stable (k : Z) (l : list A) :
  filter (fun a => key a =? k) (sorted key l) = filter (fun a => key a =? k) l.
Proof.
  induction l as [|x l IH]; [reflexivity|].
  cbn [sorted fold_right]. fold (sorted key l).
  rewrite insert_by_stable. cbn [filter]. now rewrite IH.
Qed.
End Sorted.

Lemma StronglySorted_weaken {A : Type} (R R' : A -> A -> Prop) (l : list A) :
  (forall a b, R a b -> R' a b) -> StronglySorted R l -> StronglySorted R' l.
Proof.
  intros Himp. induction 1 as [|x l Hs IH Hall]; constructor; [exact IH|].
  eapply Forall_impl; [|exact Hall]. intros a. apply Himp.
Qed.

(** X19.  The groups are reported in order of size, largest first; groups
    of one size keep the order in which their keys entered
    [fprint_groups]; no group is lost or added by the sorting. *)
Theorem ranked_groups_order :
  forall parsed : dict NodeRecord,
    Permutation (ranked_groups parsed) (fprint_groups parsed) /\
    StronglySorted (fun g1 g2 => len (snd g2) <= len (snd g1)) (ranked_groups parsed) /\
    (forall n, filter (fun g => len (snd g) =? n) (ranked_groups parsed)
               = filter (fun g => len (snd g) =? n) (fprint_groups parsed)).
Proof.
  intros parsed. unfold ranked_groups. split; [apply sorted_Permutation|]. split.
  - eapply StronglySorted_weaken;
      [|apply (sorted_StronglySorted (fun item : string * list string => - len (snd item)))].
    cbn. intros g1 g2 H. lia.
  - intros n.
    pose proof (sorted_stable (fun item : string * list string => - len (snd item)) (- n)
                  (fprint_groups parsed)) as H.
    assert (Hext : forall l : list (string * list string),
               filter (fun g => len (snd g) =? n) l
               = filter (fun a => - len (snd a) =? - n) l).
    { intros l. apply filter_ext. intros g.
      destruct (Z.eqb_spec (len (snd g)) n), (Z.eqb_spec (- len (snd g)) (- n));
        try reflexivity; lia. }
    rewrite !Hext. exact H.
Qed.

(** ** The padding of [decode_raw] *)

Lemma str_len_nonneg (s : string) : 0 <= str_len s.
Proof.
  induction s as [|c s IH]; cbn [str_len]; [lia|].
  destruct (is_continuation (byte_of_ascii c)); lia.
Qed.

Lemma str_len_append (s1 s2 : string) : str_len (s1 +++ s2) = str_len s1 + str_len s2.
Proof.
  induction s1 as [|c s1 IH]; cbn [append str_len]; [lia|]. rewrite IH. lia.
Qed.

Lemma str_len_string_times_eq (n : Z) : 0 <= n -> str_len (string_times "="%char n) = n.
Proof.
  intros Hn. unfold string_times.
  assert (H : forall k, str_len (string_of_list_ascii (repeat "="%char k)) = Z.of_nat k).
  { induction k as [|k IH]; [reflexivity|].
    cbn [repeat string_of_list_ascii str_len]. rewrite IH.
    change (is_continuation (byte_of_ascii "="%char)) with false. lia. }
  rewrite H. lia.
Qed.

(** X20.  The text [decode_raw] hands to the base64 decoder has a number of
    characters that is a multiple of four; between zero and three [=] are
    added, and none exactly when the stored text has a multiple of four
    characters already. *)
Theorem padded_length :
  forall raw_str : string,
    str_len (padded raw_str) mod 4 = 0 /\
    0 <= padding raw_str <= 3 /\
    (padding raw_str = 0 <-> str_len raw_str mod 4 = 0).
Proof.
  intros raw_str. unfold padded, padding.
  set (n := str_len raw_str).
  assert (Hn : 0 <= n mod 4 < 4) by (apply Z.mod_pos_bound; lia).
  assert (Hp : 0 <= (4 - n mod 4) mod 4 < 4) by (apply Z.mod_pos_bound; lia).
  assert (Hcases : n mod 4 = 0 /\ (4 - n mod 4) mod 4 = 0 \/
                   0 < n mod 4 /\ (4 - n mod 4) mod 4 = 4 - n mod 4).
  { destruct (Z.eq_dec (n mod 4) 0) as [E|E].
    - left. rewrite E. split; reflexivity.
    - right. split; [lia|]. apply Z.mod_small. lia. }
  split; [|split; [lia|lia]].
  rewrite str_len_append, str_len_string_times_eq by lia. fold n.
  rewrite (Z.div_mod n 4) at 1 by lia.
  destruct Hcases as [[E1 E2]|[E1 E2]]; rewrite E2.
  - rewrite E1. replace (4 * (n / 4) + 0 + 0) with ((n / 4) * 4) by lia.
    apply Z.mod_mul. lia.
  - replace (4 * (n / 4) + n mod 4 + (4 - n mod 4)) with ((n / 4 + 1) * 4) by lia.
    apply Z.mod_mul. lia.
Qed.

Example padding_counts_characters :
  padding (String (chr xc3) (String (chr xa9) "")) = 3 /\ padding "abcde" = 3 /\
  padding "abcd" = 0 /\ padded "ab" = "ab==".
Proof. repeat split. Qed.

(** ** Aliases and node ids *)

Lemma lstrip_zero_rev_padding (text : list byte) (k : nat) :
  lstrip_zero (rev (text ++ repeat x00 k)) = lstrip_zero (rev text).
Proof.
  induction k as [|k IH]; [now rewrite app_nil_r|].
  cbn [repeat]. rewrite repeat_cons, app_assoc, rev_app_distr. cbn [rev app lstrip_zero].
  change (byte_val x00 =? 0) with true. cbv iota. rewrite <- IH. reflexivity.
Qed.

Lemma rstrip_zero_padding (text : list byte) (k : nat) :
  (forall init last, text = init ++ [last] -> byte_val last <> 0) ->
  rstrip_zero (text ++ repeat x00 k) = text.
Proof.
  intros Hlast. unfold rstrip_zero. rewrite lstrip_zero_rev_padding.
  destruct (rev text) as [|b l] eqn:E.
  - apply (f_equal (@rev byte)) in E. rewrite rev_involutive in E. now subst text.
  - cbn [lstrip_zero].
    assert (Etext : text = rev l ++ [b]).
    { apply (f_equal (@rev byte)) in E. now rewrite rev_involutive in E. }
    destruct (Z.eqb_spec (byte_val b) 0) as [Hz|_].
    + exfalso. exact (Hlast _ _ Etext Hz).
    + now rewrite Etext.
Qed.

Lemma utf8_decode_replace_ascii (bs : list byte) :
  Forall (fun b => byte_val b < 128) bs -> utf8_decode_replace bs = text_of bs.
Proof.
  induction 1 as [|b bs Hb Hall IH]; [reflexivity|].
  cbn [utf8_decode_replace]. destruct (Z.ltb_spec (byte_val b) 128); [|lia].
  unfold text_of in *. cbn [map string_of_list_ascii]. now rewrite IH.
Qed.

(** X21.  An alias field that holds ASCII text followed by zero bytes is
    decoded to that text: the padding is dropped and nothing else is
    changed.  Zero bytes inside the text stay. *)
Theorem parse_node_announcement_alias_text :
  forall (raw : list byte) (r : NodeRecord) (text : list byte) (k : nat),
    parse_node_announcement raw = Ret (Some r) ->
    slice raw (2 + flen_of raw + 4 + 33 + 3) (2 + flen_of raw + 4 + 33 + 3 + 32)
    = text ++ repeat x00 k ->
    Forall (fun b => byte_val b < 128) text ->
    (forall init last, text = init ++ [last] -> byte_val last <> 0) ->
    alias r = text_of text.
Proof.
  intros raw r text k Hr Hfield Hascii Hlast.
  destruct (parse_node_announcement_Some raw r Hr)
    as (_ & addresses & decoded & _ & _ & ->).
  cbn [alias]. rewrite Hfield, rstrip_zero_padding by exact Hlast.
  now apply utf8_decode_replace_ascii.
Qed.

Lemma parse_node_announcement_alias_text_witness :
  alias (mkNodeRecord example_node_id "Test" "#000000" 1 2 "0002"
           [("data_loss_protect", "optional")]
           [mkAddress "ipv4" "127.0.0.1:9735"] ["ipv4"])
  = text_of [x54; x65; x73; x74].
Proof.
  apply (parse_node_announcement_alias_text (example_payload x07) _ [x54; x65; x73; x74] 28).
  - vm_compute. reflexivity.
  - vm_compute. reflexivity.
  - repeat constructor.
  - intros init last E.
    assert (Hl : last = x74).
    { apply (f_equal (@rev byte)) in E. rewrite rev_app_distr in E. cbn in E. congruence. }
    subst last. vm_compute. discriminate.
Defined.



(** ** From the rows to the groups *)

Lemma first_occurrences_In (k : string) (l : list string) :
  In k (first_occurrences l) <-> In k l.
Proof. unfold first_occurrences. now rewrite <- in_rev, nodup_In, <- in_rev. Qed.

Lemma first_occurrences_snoc (l : list string) (k : string) :
  first_occurrences (l ++ [k]) =
  if in_dec string_dec k l then first_occurrences l else first_occurrences l ++ [k].
Proof.
  unfold first_occurrences. rewrite rev_app_distr. cbn [rev app nodup].
  destruct (in_dec string_dec k (rev l)) as [Hyes|Hno], (in_dec string_dec k l) as [Hin|Hnin];
    try reflexivity.
  - exfalso. apply Hnin. now apply in_rev.
  - exfalso. apply Hno. now apply in_rev in Hin.
Qed.

Lemma setdefault_append_keys (key nid : string) (groups : dict (list string)) :
  dict_keys (setdefault_append key nid groups) =
  match dict_get key groups with
  | Some _ => dict_keys groups
  | None => dict_keys groups ++ [key]
  end.
Proof.
  unfold setdefault_append.
  destruct (dict_get key groups) eqn:E; now rewrite dict_keys_set, E.
Qed.

Lemma fprint_groups_keys (parsed : dict NodeRecord) :
  dict_keys (fprint_groups parsed)
  = first_occurrences (map (fun item => features_hex (snd item)) parsed).
Proof.
  induction parsed as [|item parsed IH] using rev_ind; [reflexivity|].
  rewrite fprint_groups_snoc, setdefault_append_keys, map_app. cbn [map].
  rewrite first_occurrences_snoc, <- IH.
  destruct (in_dec string_dec (features_hex (snd item))
              (map (fun item0 => features_hex (snd item0)) parsed)) as [Hin|Hnin].
  - apply first_occurrences_In in Hin. rewrite <- IH in Hin.
    destruct (dict_get (features_hex (snd item)) (fprint_groups parsed)) eqn:E;
      [reflexivity|].
    apply dict_get_None in E. contradiction.
  - destruct (dict_get (features_hex (snd item)) (fprint_groups parsed)) eqn:E;
      [|reflexivity].
    exfalso. apply Hnin. apply first_occurrences_In. rewrite <- IH.
    destruct (in_dec string_dec (features_hex (snd item)) (dict_keys (fprint_groups parsed)))
      as [H|H]; [exact H|].
    apply dict_get_None in H. congruence.
Qed.

(** X23.  The keys of the groups are the [features_hex] values of the
    index, each at the place where it occurs first; so there are as many
    groups as there are different feature bitmaps. *)
Theorem fprint_groups_key_order :
  forall parsed : dict NodeRecord,
    dict_keys (fprint_groups parsed)
    = first_occurrences (map (fun item => features_hex (snd item)) parsed) /\
    len (fprint_groups parsed)
    = len (first_occurrences (map (fun item => features_hex (snd item)) parsed)).
Proof.
  intros parsed. split; [apply fprint_groups_keys|].
  rewrite <- fprint_groups_keys. unfold dict_keys, len. now rewrite length_map.
Qed.

Lemma dict_set_new {V : Type} (d : dict V) (k : string) (v : V) :
  dict_get k d = None -> dict_set k v d = d ++ [(k, v)].
Proof.
  induction d as [|[k' v'] d IH]; cbn [dict_get dict_set app]; [reflexivity|].
  destruct (String.eqb k k'); [discriminate|]. intros H. now rewrite IH.
Qed.

Lemma index_records_distinct (rs : list NodeRecord) :
  NoDup (map node_id rs) -> index_records rs [] = index_of_all rs.
Proof.
  unfold index_of_all.
  induction rs as [|x rs IH] using rev_ind; intros Hnd; [reflexivity|].
  rewrite map_app in Hnd. cbn [map] in Hnd.
  apply NoDup_remove in Hnd. rewrite app_nil_r in Hnd. destruct Hnd as [Hnd Hnotin].
  rewrite index_records_snoc, IH by exact Hnd. rewrite map_app. cbn [map].
  assert (Hget : dict_get (node_id x) (map (fun r => (node_id r, r)) rs) = None).
  { apply dict_get_None. unfold dict_keys. rewrite map_map. cbn [fst]. exact Hnotin. }
  unfold keep_latest. rewrite Hget. now apply dict_set_new.
Qed.

(** X24.  When the decoded rows all have different node ids, the index
    holds every decoded record, in the order of the rows, and the sizes of
    the groups add up to the number of decoded rows. *)
Theorem distinct_rows_all_grouped :
  forall rows : list (list byte),
    NoDup (map node_id (decoded_records rows)) ->
    exists parse_errors,
      index_rows rows [] 0 = Ret (index_of_all (decoded_records rows), parse_errors) /\
      total_members (fprint_groups (index_of_all (decoded_records rows)))
      = len (decoded_records rows) /\
      len (decoded_records rows) + parse_errors = len rows.
Proof.
  intros rows Hnd. exists (len (filter node_malformedb rows)).
  rewrite index_rows_records, (index_records_distinct _ Hnd).
  pose proof (decoded_records_length rows) as Hlen.
  split; [do 2 f_equal; lia|]. split; [|exact Hlen].
  rewrite fprint_groups_total. unfold index_of_all, len. now rewrite length_map.
Qed.

Lemma distinct_rows_all_grouped_witness :
  exists parse_errors,
    index_rows [example_payload x07; [x00]; other_node_payload] [] 0
    = Ret (index_of_all (decoded_records [example_payload x07; [x00]; other_node_payload]),
           parse_errors) /\
    total_members
      (fprint_groups
         (index_of_all (decoded_records [example_payload x07; [x00]; other_node_payload])))
    = len (decoded_records [example_payload x07; [x00]; other_node_payload]) /\
    len (decoded_records [example_payload x07; [x00]; other_node_payload]) + parse_errors
    = len [example_payload x07; [x00]; other_node_payload].
Proof.
  apply distinct_rows_all_grouped. vm_compute.
  constructor; [intros [H|[]]; discriminate H|]. constructor; [intros []|constructor].
Defined.

Example two_nodes_one_rejected :
  len (decoded_records [example_payload x07; [x00]; other_node_payload]) = 2 /\
  len (filter node_malformedb [example_payload x07; [x00]; other_node_payload]) = 1.
Proof. split; vm_compute; reflexivity. Qed.
